(** * ZapCall signaling worker: room registry and message relay

    A shallow embedding of the two variants of the worker
    ([src/worker.js] and its on-demand sibling with the heartbeat case and
    the connection counter) and the properties of the room registry and of
    the relay that the specification states.

    Conventions of the embedding.
    - The global [rooms] is a JavaScript [Map] of [Map]s.  A [Map] iterates in
      insertion order, so it is an association list kept in that order.
      Every inner [Map] is created by [new Map()] at one key of [rooms] and
      is reachable only through that key, so mutating it in place is
      writing the new value back at that key.
    - A room or user identifier is whatever the parsed message carries: a
      primitive value (or [undefined] for a missing property), which a
      [Map] compares by value, or an array or object, which a [Map]
      compares by reference.  Numbers are the integral ones.
    - A handler is a function from the registry to the new registry, the
      list of effects it performed, in order, and whether it ended by
      throwing.  What it did before it threw stays done.  Exceptions come
      from [JSON.parse] and from reading a property of [null], both inside
      the [try] of the message listener; from the template literal of a
      log line, when an identifier is an object that has no string form;
      and from touching a socket that the runtime does not let the running
      handler touch.  The message listener catches what its handlers
      throw; the close listener has no [try].
    - [readyState] and the reach of a handler belong to the transport:
      every handler receives them as a [transport]. *)

From Stdlib Require Import List String ZArith Bool Lia.
Import ListNotations.
Local Open Scope string_scope.
Local Open Scope list_scope.

Set Implicit Arguments.

(** ** JavaScript values *)

Inductive prim : Type :=
| Undefined
| Null
| Boolean (b : bool)
| Number (n : Z)
| Str (s : string).

Unset Elimination Schemes.
Inductive jsval : Type :=
| Prim (p : prim)
| Arr (items : list jsval)
| Obj (props : list (string * jsval)).
Set Elimination Schemes.

Definition prim_eqb (a b : prim) : bool :=
  match a, b with
  | Undefined, Undefined => true
  | Null, Null => true
  | Boolean x, Boolean y => Bool.eqb x y
  | Number x, Number y => Z.eqb x y
  | Str x, Str y => String.eqb x y
  | _, _ => false
  end.

(** Two values with the same content. *)
Fixpoint jsval_eqb (a b : jsval) {struct a} : bool :=
  match a, b with
  | Prim p, Prim q => prim_eqb p q
  | Arr xs, Arr ys =>
      (fix items (xs ys : list jsval) {struct xs} : bool :=
         match xs, ys with
         | [], [] => true
         | x :: xs', y :: ys' => jsval_eqb x y && items xs' ys'
         | _, _ => false
         end) xs ys
  | Obj ps, Obj qs =>
      (fix props (ps qs : list (string * jsval)) {struct ps} : bool :=
         match ps, qs with
         | [], [] => true
         | (k, x) :: ps', (l, y) :: qs' =>
             String.eqb k l && jsval_eqb x y && props ps' qs'
         | _, _ => false
         end) ps qs
  | _, _ => false
  end.

(** What [data.roomId] or [data.userId] evaluates to.  [Id p] is a
    primitive.  [Ref address value] is the array or object that
    [JSON.parse] built at [address] with the content [value]; every parse
    builds its objects at addresses of its own, and an address has one
    content. *)
Inductive ident : Type :=
| Id (p : prim)
| Ref (address : nat) (value : jsval).

(** The comparison a [Map] applies to its keys: primitives by value,
    objects by reference. *)
Definition same_value_zero (a b : ident) : bool :=
  match a, b with
  | Id p, Id q => prim_eqb p q
  | Ref x v, Ref y w => Nat.eqb x y && jsval_eqb v w
  | _, _ => false
  end.

(** The value of an identifier, as [JSON.stringify] writes it. *)
Definition value_of (i : ident) : jsval :=
  match i with
  | Id p => Prim p
  | Ref _ v => v
  end.

(** Whether a value has a string form.  The template literal of a log
    line converts each identifier to a string.  A primitive has one.  An
    object has ["[object Object]"], unless it has a property [toString] of
    its own: a parsed property is never a function, the conversion then
    falls back on [valueOf], which returns the object, and a [TypeError]
    is thrown.  An array joins the string forms of its items. *)
Fixpoint printable_value (v : jsval) : bool :=
  match v with
  | Prim _ => true
  | Arr items => forallb printable_value items
  | Obj props => negb (existsb (fun kv => String.eqb (fst kv) "toString") props)
  end.

Definition printable (i : ident) : bool := printable_value (value_of i).

(** [v === 'literal'] *)
Definition is_string (v : jsval) (literal : string) : bool :=
  match v with
  | Prim (Str s) => String.eqb s literal
  | _ => false
  end.

(** ** [Map], in insertion order *)

Module JsMap.
Section Ordered.
Variable V : Type.

Definition t := list (ident * V).

Fixpoint get (k : ident) (m : t) : option V :=
  match m with
  | [] => None
  | (k', v) :: m' => if same_value_zero k' k then Some v else get k m'
  end.

Definition has (k : ident) (m : t) : bool :=
  match get k m with Some _ => true | None => false end.

(** [set] keeps the position of a key that is present and appends a new
    key at the end. *)
Fixpoint set (k : ident) (v : V) (m : t) : t :=
  match m with
  | [] => [(k, v)]
  | (k', v') :: m' =>
      if same_value_zero k' k then (k', v) :: m' else (k', v') :: set k v m'
  end.

Fixpoint delete (k : ident) (m : t) : t :=
  match m with
  | [] => []
  | (k', v') :: m' =>
      if same_value_zero k' k then delete k m' else (k', v') :: delete k m'
  end.

Definition size (m : t) : nat := List.length m.

Definition keys (m : t) : list ident := map fst m.

(** [forEach] with a callback that leaves the map alone.  The callback
    returns its effects and whether it threw; the walk ends at the first
    callback that throws, and the exception is the one of [forEach]. *)
Fixpoint forEach (E : Type) (f : V -> ident -> list E * bool) (m : t) : list E * bool :=
  match m with
  | [] => ([], false)
  | (k, v) :: m' =>
      let r := f v k in
      if snd r then r
      else
        let r' := forEach f m' in
        (fst r ++ fst r', snd r')
  end.

End Ordered.
End JsMap.

(** ** The registry *)

(** The object [{ socket, socketId }] stored per user.  [socket] is the
    identity of the server end of the [WebSocketPair]. *)
Record client : Type := { socket : nat; socketId : string }.

Definition room : Type := JsMap.t client.
Definition registry : Type := JsMap.t room.

(** The participants of a room; none when the room is absent. *)
Definition participants (roomId : ident) (rooms : registry) : room :=
  match JsMap.get roomId rooms with
  | Some clients => clients
  | None => []
  end.

(** The entry of a user in a room. *)
Definition registered (roomId userId : ident) (rooms : registry) : option client :=
  match JsMap.get roomId rooms with
  | Some clients => JsMap.get userId clients
  | None => None
  end.

(** ** Messages *)

(** The properties the handlers read from a parsed message.  A property
    that is missing reads as [undefined]. *)
Record message : Type := {
  type : jsval;
  roomId : ident;
  userId : ident;
  sender : jsval;
  offer : jsval;
  answer : jsval;
  candidate : jsval
}.

(** The outcome of [JSON.parse(event.data)]: it throws, or it yields
    [null] (reading [message.type] then throws), or it yields a value whose
    properties are read. *)
Inductive inbound : Type :=
| SyntaxError
| JsonNull
| Json (m : message).

Definition undefined : jsval := Prim Undefined.

(** The object literal [{ roomId: roomId, userId: userId }] of the close
    listener. *)
Definition membership (r u : ident) : message :=
  {| type := undefined; roomId := r; userId := u; sender := undefined;
     offer := undefined; answer := undefined; candidate := undefined |}.

(** ** Effects *)

Inductive logline : Type :=
| UserJoined (userId roomId : ident)
| RoomHas (roomId : ident) (size : nat)
| UserLeft (userId roomId : ident)
| RoomRemoved (roomId : ident)
| UnknownType (t : jsval)
| NewConnection (active : Z)
| ConnectionClosed (active : Z)
| NoActiveConnections.

(** [Send ws m] is [ws.send(JSON.stringify(m))]; [ConsoleError] is the
    [console.error] of the [catch] clause; [Uncaught] is an exception that
    leaves a listener that has no [try]. *)
Inductive effect : Type :=
| Send (ws : nat) (m : jsval)
| ConsoleLog (l : logline)
| ConsoleError
| Uncaught.

(** The frames of a list of effects, in order. *)
Definition sent (out : list effect) : list (nat * jsval) :=
  flat_map (fun e => match e with Send ws m => [(ws, m)] | _ => [] end) out.

(** What a handler returns: the registry it leaves, its effects, and
    whether it threw. *)
Definition outcome : Type := registry * (list effect * bool).

Definition effects (o : outcome) : list effect := fst (snd o).
Definition threw (o : outcome) : bool := snd (snd o).

(** ** The transport *)

(** [ready ws]: the [readyState] of the socket is OPEN.  [shared ws]: the
    runtime lets a handler touch the socket although another request
    accepted it.  The Workers runtime shares no socket between requests:
    touching the socket of another request throws there. *)
Record transport : Type := {
  ready : nat -> bool;
  shared : nat -> bool
}.

(** Whether the runtime refuses the handler that runs for the request of
    the socket [own] the access to the socket [ws].  The socket of the
    request itself is never refused. *)
Definition refused (t : transport) (own ws : nat) : bool :=
  negb (Nat.eqb ws own) && negb (shared t ws).

(** ** The handlers shared by the two variants *)

Section Handlers.
Variable t : transport.

(** [own] is the socket of the request the code runs for.  Neither the
    read of [readyState] nor the [send] is inside a [try]. *)
Definition sendToClient (own webSocket : nat) (m : jsval) : list effect * bool :=
  if refused t own webSocket then ([], true)
  else if ready t webSocket then ([Send webSocket m], false)
  else ([], false).

Definition broadcastToRoom (own : nat) (rooms : registry) (r : ident) (m : jsval)
    (excludeSocketId : string) : list effect * bool :=
  match JsMap.get r rooms with
  | Some clients =>
      JsMap.forEach
        (fun c (_ : ident) =>
           if negb (String.eqb (socketId c) excludeSocketId)
           then sendToClient own (socket c) m
           else ([], false))
        clients
  | None => ([], false)
  end.

Definition peer_joined (r u : ident) : jsval :=
  Obj [("type", Prim (Str "peer-joined")); ("roomId", value_of r); ("userId", value_of u)].

Definition peer_left (r u : ident) : jsval :=
  Obj [("type", Prim (Str "peer-left")); ("roomId", value_of r); ("userId", value_of u)].

(** A template literal over the identifiers [parts]: [true] when it
    evaluates, [false] when the conversion of one of them throws. *)
Definition template (parts : list ident) : bool := forallb printable parts.

(** The handlers are called with the socket of the connection whose
    listener runs, which is the socket of the running request. *)
Definition handleJoinRoom (ws : nat) (sid : string) (data : message)
    (rooms : registry) : outcome :=
  let r := roomId data in
  let u := userId data in
  (* Create room if it doesn't exist *)
  let rooms1 := if negb (JsMap.has r rooms) then JsMap.set r [] rooms else rooms in
  (* Add client to room *)
  let clients := JsMap.set u {| socket := ws; socketId := sid |} (participants r rooms1) in
  let rooms2 := JsMap.set r clients rooms1 in
  if negb (template [u; r]) then (rooms2, ([], true))
  else
    (* Notify other peers in the room *)
    let b := broadcastToRoom ws rooms2 r (peer_joined r u) sid in
    (rooms2,
     ([ConsoleLog (UserJoined u r); ConsoleLog (RoomHas r (JsMap.size clients))] ++ fst b,
      snd b)).

Definition handleLeaveRoom (ws : nat) (sid : string) (data : message)
    (rooms : registry) : outcome :=
  let r := roomId data in
  let u := userId data in
  match JsMap.get r rooms with
  | Some clients =>
      (* Remove client from room *)
      let clients := JsMap.delete u clients in
      let rooms1 := JsMap.set r clients rooms in
      if negb (template [u; r]) then (rooms1, ([], true))
      else
        (* Notify other peers in the room *)
        let b := broadcastToRoom ws rooms1 r (peer_left r u) sid in
        let out :=
          [ConsoleLog (UserLeft u r); ConsoleLog (RoomHas r (JsMap.size clients))]
            ++ fst b in
        if snd b then (rooms1, (out, true))
        else
          (* Remove room if empty *)
          if Nat.eqb (JsMap.size clients) 0
          then (JsMap.delete r rooms1, (out ++ [ConsoleLog (RoomRemoved r)], false))
          else (rooms1, (out, false))
  | None => (rooms, ([], false))
  end.

Definition handleOffer (ws : nat) (sid : string) (data : message)
    (rooms : registry) : outcome :=
  (rooms,
   broadcastToRoom ws rooms (roomId data)
     (Obj [("type", Prim (Str "offer")); ("sender", sender data); ("offer", offer data)])
     sid).

Definition handleAnswer (ws : nat) (sid : string) (data : message)
    (rooms : registry) : outcome :=
  (rooms,
   broadcastToRoom ws rooms (roomId data)
     (Obj [("type", Prim (Str "answer")); ("sender", sender data); ("answer", answer data)])
     sid).

Definition handleIceCandidate (ws : nat) (sid : string) (data : message)
    (rooms : registry) : outcome :=
  (rooms,
   broadcastToRoom ws rooms (roomId data)
     (Obj [("type", Prim (Str "ice-candidate")); ("sender", sender data);
           ("candidate", candidate data)])
     sid).

End Handlers.

(** ** The listeners of a connection *)

(** The two source files.  They share the handlers above word for word;
    the on-demand one adds the [heartbeat] case and counts the active
    connections. *)
Inductive variant : Type := WorkerJs | OnDemand.

Section Listeners.
Variable v : variant.
Variable t : transport.

Definition heartbeat_ack : jsval := Obj [("type", Prim (Str "heartbeat-ack"))].

(** The [catch] clause of the message listener: what the handler did
    stays, and the exception is logged. *)
Definition caught (o : outcome) : registry * list effect :=
  (fst o, if threw o then effects o ++ [ConsoleError] else effects o).

(** [server.addEventListener('message', ...)] of the connection with the
    server socket [server] and the identifier [sid]. *)
Definition messageListener (server : nat) (sid : string) (data : inbound)
    (rooms : registry) : registry * list effect :=
  match data with
  | SyntaxError => (rooms, [ConsoleError])
  | JsonNull => (rooms, [ConsoleError])
  | Json m =>
      if is_string (type m) "join-room" then caught (handleJoinRoom t server sid m rooms)
      else if is_string (type m) "leave-room" then
        caught (handleLeaveRoom t server sid m rooms)
      else if is_string (type m) "offer" then caught (handleOffer t server sid m rooms)
      else if is_string (type m) "answer" then caught (handleAnswer t server sid m rooms)
      else if is_string (type m) "ice-candidate" then
        caught (handleIceCandidate t server sid m rooms)
      else
        match v with
        | OnDemand =>
            if is_string (type m) "heartbeat"
            then caught (rooms, sendToClient t server server heartbeat_ack)
            else (rooms, [ConsoleLog (UnknownType (type m))])
        | WorkerJs => (rooms, [ConsoleLog (UnknownType (type m))])
        end
  end.

(** The close listener runs [handleLeaveRoom] from inside two nested
    [forEach] loops over the maps that [handleLeaveRoom] mutates.
    [Map.prototype.forEach] walks the entries in insertion order and
    calls back for an entry only if it is still in the map when the walk
    reaches it.  [handleLeaveRoom] adds no entry, so the walk is over the
    keys present when the loop starts, each looked up again when it is
    reached.  A room removed from [rooms] during the walk was empty when it
    was removed, so looking its users up through [rooms] finds none, as
    the walk over the emptied [clients] would.  Nothing catches what
    [handleLeaveRoom] throws: the exception ends both loops, and no
    callback runs after it. *)
Definition closeEntry (server : nat) (sid : string) (r u : ident)
    (st : outcome) : outcome :=
  if threw st then st
  else
    match registered r u (fst st) with
    | Some c =>
        if String.eqb (socketId c) sid
        then
          let res := handleLeaveRoom t server sid (membership r u) (fst st) in
          (fst res, (effects st ++ effects res, threw res))
        else st
    | None => st
    end.

Definition closeRoom (server : nat) (sid : string) (st : outcome) (r : ident)
    : outcome :=
  match JsMap.get r (fst st) with
  | Some clients =>
      fold_left (fun st' u => closeEntry server sid r u st') (JsMap.keys clients) st
  | None => st
  end.

Definition closeListener (server : nat) (sid : string) (rooms : registry) : outcome :=
  fold_left (closeRoom server sid) (JsMap.keys rooms) (rooms, ([], false)).

End Listeners.

(** ** The worker *)

(** [rooms] and [activeConnections] are the globals of the source;
    [sockets] holds, for every accepted connection, the [socketId] its
    listeners close over, at the index that identifies its server socket. *)
Record world : Type := {
  rooms : registry;
  sockets : list string;
  activeConnections : Z
}.

Definition initial : world :=
  {| rooms := []; sockets := []; activeConnections := 0 |}.

(** [Upgrade rnd36] is a fetch event whose [Upgrade] header is
    [websocket], with [rnd36] the value of [Math.random().toString(36)]
    during it.  The other fetch events go to [handleHttpRequest], which
    touches none of the globals. *)
Inductive event : Type :=
| Upgrade (rnd36 : string)
| OnMessage (server : nat) (data : inbound)
| OnClose (server : nat).

(** [s.substr(start, len)] for non-negative arguments. *)
Definition substr (start len : nat) (s : string) : string :=
  String.substring start len s.

(** ['socket_' + Math.random().toString(36).substr(2, 9)] *)
Definition newSocketId (rnd36 : string) : string :=
  String.append "socket_" (substr 2 9 rnd36).

Definition connected : jsval := Obj [("type", Prim (Str "connected"))].

Section Worker.
Variable v : variant.
Variable t : transport.

(** The logging part of [checkIdleShutdown]; its timer only logs when it
    fires and is left out. *)
Definition checkIdleShutdown (active : Z) : list effect :=
  if Z.eqb active 0 then [ConsoleLog NoActiveConnections] else [].

(** The acknowledgment goes to the socket the request has just accepted,
    its own. *)
Definition handleWebSocket (rnd36 : string) (w : world) : world * list effect :=
  let server := List.length (sockets w) in
  let sid := newSocketId rnd36 in
  match v with
  | WorkerJs =>
      ({| rooms := rooms w; sockets := sockets w ++ [sid];
          activeConnections := activeConnections w |},
       fst (sendToClient t server server connected))
  | OnDemand =>
      let active := (activeConnections w + 1)%Z in
      ({| rooms := rooms w; sockets := sockets w ++ [sid];
          activeConnections := active |},
       ConsoleLog (NewConnection active) :: fst (sendToClient t server server connected))
  end.

Definition onMessage (server : nat) (data : inbound) (w : world)
    : world * list effect :=
  match nth_error (sockets w) server with
  | Some sid =>
      let res := messageListener v t server sid data (rooms w) in
      ({| rooms := fst res; sockets := sockets w;
          activeConnections := activeConnections w |}, snd res)
  | None => (w, [])
  end.

(** What the close listener leaves behind, and the exception that leaves
    it if one does. *)
Definition escaped (o : outcome) : list effect :=
  if threw o then effects o ++ [Uncaught] else effects o.

Definition onClose (server : nat) (w : world) : world * list effect :=
  match nth_error (sockets w) server with
  | Some sid =>
      let res := closeListener t server sid (rooms w) in
      match v with
      | WorkerJs =>
          ({| rooms := fst res; sockets := sockets w;
              activeConnections := activeConnections w |}, escaped res)
      | OnDemand =>
          let active := (activeConnections w - 1)%Z in
          ({| rooms := fst res; sockets := sockets w; activeConnections := active |},
           ConsoleLog (ConnectionClosed active) :: checkIdleShutdown active ++ escaped res)
      end
  | None => (w, [])
  end.

Definition step (e : event) (w : world) : world * list effect :=
  match e with
  | Upgrade rnd36 => handleWebSocket rnd36 w
  | OnMessage server data => onMessage server data w
  | OnClose server => onClose server w
  end.

End Worker.

(** A run of the worker: every event comes with the transport as it is
    while the event is handled. *)
Fixpoint run (v : variant) (es : list (transport * event)) (w : world) : world :=
  match es with
  | [] => w
  | (t, e) :: es' => run v es' (fst (step v t e w))
  end.

(** ** Scenarios *)

(** The Workers runtime with every socket OPEN: no socket is shared
    between requests. *)
Definition isolated : transport :=
  {| ready := fun _ => true; shared := fun _ => false |}.

Definition msg (ty : string) (r u : ident) : message :=
  {| type := Prim (Str ty); roomId := r; userId := u; sender := undefined;
     offer := undefined; answer := undefined; candidate := undefined |}.

Definition lobby : ident := Id (Str "lobby").
Definition alice : ident := Id (Str "alice").
Definition bob : ident := Id (Str "bob").

(** X joins the lobby as alice, Y joins it as bob. *)
Definition two_peers : list (transport * event) :=
  [ (isolated, Upgrade "0.x"); (isolated, Upgrade "0.y");
    (isolated, OnMessage 0 (Json (msg "join-room" lobby alice)));
    (isolated, OnMessage 1 (Json (msg "join-room" lobby bob))) ].

(** X joins room A as u1 and room B as u2; Y joins room A as bob. *)
Definition two_rooms : list (transport * event) :=
  [ (isolated, Upgrade "0.x"); (isolated, Upgrade "0.y");
    (isolated, OnMessage 0 (Json (msg "join-room" (Id (Str "A")) (Id (Str "u1")))));
    (isolated, OnMessage 1 (Json (msg "join-room" (Id (Str "A")) bob)));
    (isolated, OnMessage 0 (Json (msg "join-room" (Id (Str "B")) (Id (Str "u2"))))) ].

(** X and Y are accepted on the same draw, then join the lobby as alice
    and bob. *)
Definition twins : list (transport * event) :=
  [ (isolated, Upgrade "0.i"); (isolated, Upgrade "0.i");
    (isolated, OnMessage 0 (Json (msg "join-room" lobby alice)));
    (isolated, OnMessage 1 (Json (msg "join-room" lobby bob))) ].

(** An [offer] of alice to the lobby. *)
Definition offer_of_alice : message :=
  {| type := Prim (Str "offer"); roomId := lobby; userId := Id Undefined;
     sender := Prim (Str "alice");
     offer := Obj [("type", Prim (Str "offer")); ("sdp", Prim (Str "v=0"))];
     answer := undefined; candidate := undefined |}.

(** The user identifier [{"toString": null}], an object of the message
    that carries it. *)
Definition nameless : ident := Ref 0 (Obj [("toString", Prim Null)]).

(** X joins the lobby under that identifier, then closes. *)
Definition nameless_visit : list (transport * event) :=
  [ (isolated, Upgrade "0.x");
    (isolated, OnMessage 0 (Json (msg "join-room" lobby nameless)));
    (isolated, OnClose 0) ].

(** ** Notions the properties are stated with *)

(** A [Map] has no two entries with one key. *)
Definition well_formed (rs : registry) : Prop :=
  NoDup (JsMap.keys rs)
  /\ forall r clients, In (r, clients) rs -> NoDup (JsMap.keys clients).

Definition no_empty_room (rs : registry) : Prop :=
  forall r clients, JsMap.get r rs = Some clients -> clients <> [].

(** Every key of the registry has a string form. *)
Definition printable_keys (rs : registry) : Prop :=
  forall r clients, JsMap.get r rs = Some clients ->
    printable r = true /\ forall u c, JsMap.get u clients = Some c -> printable u = true.

(** The clients of a room that a broadcast excluding [sid] calls
    [sendToClient] for, in the order of the room. *)
Definition others (sid : string) (clients : room) : list client :=
  map snd (filter (fun uc => negb (String.eqb (socketId (snd uc)) sid)) clients).

(** Of the clients a broadcast calls [sendToClient] for, those it gets to:
    the ones before the first whose socket the runtime refuses. *)
Fixpoint reached (t : transport) (own : nat) (cs : list client) : list client :=
  match cs with
  | [] => []
  | c :: cs' => if refused t own (socket c) then [] else c :: reached t own cs'
  end.

(** Whether the runtime refuses the socket of one of the clients. *)
Definition blocked (t : transport) (own : nat) (cs : list client) : bool :=
  existsb (fun c => refused t own (socket c)) cs.

(** The frames [sendToClient] transmits when called with [m] for each of
    the clients. *)
Definition deliveries (open : nat -> bool) (m : jsval) (cs : list client)
  : list (nat * jsval) :=
  flat_map (fun c => if open (socket c) then [(socket c, m)] else []) cs.

Definition frame (f : nat * jsval) : effect := Send (fst f) (snd f).

(** The close listener as the specification words it: find every
    membership of the connection, then leave each. *)
Definition findMemberships (sid : string) (rs : registry) : list (ident * ident) :=
  flat_map
    (fun rc =>
       flat_map
         (fun uc => if String.eqb (socketId (snd uc)) sid then [(fst rc, fst uc)] else [])
         (snd rc))
    rs.

(** Leaving the next membership, unless an exception has ended the
    listener. *)
Definition leaveNext (t : transport) (server : nat) (sid : string)
    (st : outcome) (ru : ident * ident) : outcome :=
  if threw st then st
  else
    let res := handleLeaveRoom t server sid (membership (fst ru) (snd ru)) (fst st) in
    (fst res, (effects st ++ effects res, threw res)).

Definition leaveAll (t : transport) (server : nat) (sid : string)
    (ms : list (ident * ident)) (st : outcome) : outcome :=
  fold_left (leaveNext t server sid) ms st.




(** Every registered client is the socket and the identifier of one
    accepted connection. *)
Definition consistent (w : world) : Prop :=
  forall r u c, registered r u (rooms w) = Some c ->
                nth_error (sockets w) (socket c) = Some (socketId c).

(** The memberships one room contributes to [findMemberships]. *)
Definition memberships_in (sid : string) (r : ident) (clients : room)
  : list (ident * ident) :=
  flat_map (fun uc => if String.eqb (socketId (snd uc)) sid then [(r, fst uc)] else [])
    clients.

Definition invariant (w : world) : Prop :=
  well_formed (rooms w) /\ consistent w.


(** A transport that shares no socket between requests. *)
Definition isolating (t : transport) : Prop := forall ws, shared t ws = false.

(** The relay rows of the dispatch table of the specification: the
    message that goes out for an [offer], an [answer] or an
    [ice-candidate]. *)
Definition relayed (m : message) : option jsval :=
  if is_string (type m) "offer" then
    Some (Obj [("type", Prim (Str "offer")); ("sender", sender m); ("offer", offer m)])
  else if is_string (type m) "answer" then
    Some (Obj [("type", Prim (Str "answer")); ("sender", sender m); ("answer", answer m)])
  else if is_string (type m) "ice-candidate" then
    Some (Obj [("type", Prim (Str "ice-candidate")); ("sender", sender m);
               ("candidate", candidate m)])
  else None.

(** The types the switch of a variant has a case for. *)
Definition handled (v : variant) (t : jsval) : bool :=
  is_string t "join-room" || is_string t "leave-room" || is_string t "offer"
  || is_string t "answer" || is_string t "ice-candidate"
  || match v with OnDemand => is_string t "heartbeat" | WorkerJs => false end.

(** A run in which every [join-room] carries identifiers that have a
    string form. *)
Definition printable_joins (es : list (transport * event)) : bool :=
  forallb
    (fun te =>
       match snd te with
       | OnMessage _ (Json m) =>
           negb (is_string (type m) "join-room")
           || (printable (roomId m) && printable (userId m))
       | _ => true
       end)
    es.

(** ** The rest of the worker: fetch events, HTTP answers, the idle timer *)

(** What the fetch listener reads of a request: the value of its
    [Upgrade] header, [None] when it has none, and its method. *)
Record request : Type := { upgrade : option string; method : string }.

(** A [Response]: its status, its body, its headers in the order of the
    source, and the client end of the socket pair when it hands one over.
    The pair is known by the index of its server end. *)
Record response : Type := {
  status : nat;
  body : option string;
  headers : list (string * string);
  webSocket : option nat
}.

Definition handleCORS (req : request) : response :=
  {| status := 204; body := None;
     headers := [ ("Access-Control-Allow-Origin", "*");
                  ("Access-Control-Allow-Methods", "GET, POST, OPTIONS");
                  ("Access-Control-Allow-Headers", "Content-Type");
                  ("Access-Control-Max-Age", "86400") ];
     webSocket := None |}.

Definition handleHttpRequest (req : request) : response :=
  if String.eqb (method req) "OPTIONS" then handleCORS req
  else
    {| status := 200; body := Some "ZapCall Signaling Server - Cloudflare Worker";
       headers := [ ("Content-Type", "text/plain");
                    ("Access-Control-Allow-Origin", "*");
                    ("Access-Control-Allow-Methods", "GET, POST, OPTIONS");
                    ("Access-Control-Allow-Headers", "Content-Type") ];
       webSocket := None |}.

(** [headers.get('Upgrade') === 'websocket'] *)
Definition asks_websocket (req : request) : bool :=
  match upgrade req with
  | Some h => String.eqb h "websocket"
  | None => false
  end.

(** [handleWebSocket(event)] from its first line: the check of the header,
    then the accept that [handleWebSocket] above models, then the answer
    that hands over the client end. *)
Definition handleWebSocketEvent (v : variant) (t : transport) (req : request)
    (rnd36 : string) (w : world) : world * list effect * response :=
  if negb (asks_websocket req) then
    (w, [], {| status := 426; body := Some "Expected Upgrade: websocket";
               headers := []; webSocket := None |})
  else
    let res := handleWebSocket v t rnd36 w in
    (fst res, snd res,
     {| status := 101; body := None; headers := [];
        webSocket := Some (List.length (sockets w)) |}).

(** [addEventListener('fetch', ...)] *)
Definition fetchListener (v : variant) (t : transport) (req : request)
    (rnd36 : string) (w : world) : world * list effect * response :=
  if asks_websocket req then handleWebSocketEvent v t req rnd36 w
  else (w, [], handleHttpRequest req).

(** The timers of the on-demand variant.  [idleTimer] is the global of
    that name, [pending] the timers the runtime holds armed, oldest first,
    and [nextTimer] the identifier the next [setTimeout] returns.
    Identifiers are positive, so that a timer identifier is truthy. *)
Record timers : Type := {
  idleTimer : option nat;
  pending : list nat;
  nextTimer : nat
}.

Definition no_timers : timers := {| idleTimer := None; pending := []; nextTimer := 1 |}.

Definition clearTimeout (id : nat) (armed : list nat) : list nat :=
  filter (fun t => negb (Nat.eqb t id)) armed.

(** [checkIdleShutdown] as it acts on the timers. *)
Definition checkIdleTimer (active : Z) (t : timers) : timers :=
  if Z.eqb active 0 then
    let armed :=
      match idleTimer t with
      | Some id => clearTimeout id (pending t)
      | None => pending t
      end in
    {| idleTimer := Some (nextTimer t); pending := armed ++ [nextTimer t];
       nextTimer := S (nextTimer t) |}
  else
    match idleTimer t with
    | Some id =>
        {| idleTimer := None; pending := clearTimeout id (pending t);
           nextTimer := nextTimer t |}
    | None => t
    end.

(** What happens to the worker: an event of the transport, or an armed
    timer that fires. *)
Inductive occurrence : Type :=
| Transport (e : event)
| TimerFires (id : nat).

(** The callback of a timer only logs
    ['Worker shutting down due to inactivity']; a timer that fired is no
    longer armed, and [idleTimer] keeps its identifier. *)
Definition fire (id : nat) (t : timers) : timers :=
  {| idleTimer := idleTimer t; pending := clearTimeout id (pending t);
     nextTimer := nextTimer t |}.

Definition shutdown_logged (id : nat) (t : timers) : bool :=
  existsb (Nat.eqb id) (pending t).

(** Only the close listener of the on-demand variant calls
    [checkIdleShutdown], after it has counted the connection down. *)
Definition timers_step (v : variant) (e : event) (w : world) (t : timers) : timers :=
  match v, e with
  | OnDemand, OnClose server =>
      match nth_error (sockets w) server with
      | Some _ => checkIdleTimer (activeConnections w - 1) t
      | None => t
      end
  | _, _ => t
  end.

Definition occur (v : variant) (t : transport) (o : occurrence)
    (s : world * timers) : world * timers :=
  match o with
  | Transport e => (fst (step v t e (fst s)), timers_step v e (fst s) (snd s))
  | TimerFires id => (fst s, fire id (snd s))
  end.

Fixpoint occurAll (v : variant) (os : list (transport * occurrence))
    (s : world * timers) : world * timers :=
  match os with
  | [] => s
  | (t, o) :: os' => occurAll v os' (occur v t o s)
  end.

(** An occurrence that is neither a close nor a timer. *)
Definition keeps_timers (o : occurrence) : bool :=
  match o with
  | Transport (Upgrade _) => true
  | Transport (OnMessage _ _) => true
  | _ => false
  end.

(** The messages the source builds to send: the five object literals of the
    handlers and the two of the listeners. *)
Definition outbound (v : variant) (f : jsval) : Prop :=
  f = connected
  \/ (exists r u, f = peer_joined r u)
  \/ (exists r u, f = peer_left r u)
  \/ (exists m, relayed m = Some f)
  \/ (v = OnDemand /\ f = heartbeat_ack).

(** Every armed timer is the one [idleTimer] holds, and it is armed once. *)
Definition one_timer (t : timers) : Prop :=
  NoDup (pending t) /\ forall id, In id (pending t) -> idleTimer t = Some id.

(** ** Runs *)

(** The effects of a run, in order. *)
Fixpoint trace (v : variant) (es : list (transport * event)) (w : world)
  : list effect :=
  match es with
  | [] => []
  | (t, e) :: es' =>
      snd (step v t e w) ++ trace v es' (fst (step v t e w))
  end.

(** The draws of the upgrades of a run, in order. *)
Definition draws (es : list (transport * event)) : list string :=
  flat_map (fun re => match snd re with Upgrade rnd36 => [rnd36] | _ => [] end) es.

Definition upgrades (es : list (transport * event)) : nat :=
  List.length (filter (fun re => match snd re with Upgrade _ => true | _ => false end) es).

Definition closes (es : list (transport * event)) : nat :=
  List.length (filter (fun re => match snd re with OnClose _ => true | _ => false end) es).

(** A run in which the transport closes only sockets that were accepted,
    and each of them at most once; [accepted] sockets exist when it starts
    and those of [closed] are closed already. *)
Fixpoint orderly (accepted : nat) (closed : list nat)
    (es : list (transport * event)) : bool :=
  match es with
  | [] => true
  | (_, Upgrade _) :: es' => orderly (S accepted) closed es'
  | (_, OnMessage _ _) :: es' => orderly accepted closed es'
  | (_, OnClose server) :: es' =>
      Nat.ltb server accepted && negb (existsb (Nat.eqb server) closed)
      && orderly accepted (server :: closed) es'
  end.

(** X is accepted, closes, and Y is accepted while the timer of the close
    is armed. *)
Definition reconnect : list (transport * occurrence) :=
  [ (isolated, Transport (Upgrade "0.x")); (isolated, Transport (OnClose 0));
    (isolated, Transport (Upgrade "0.y")) ].
(** * Properties *)

Unset Implicit Arguments.

(** ** Keys *)

Lemma jsval_induction (P : jsval -> Prop) :
  (forall p, P (Prim p)) ->
  (forall items, Forall P items -> P (Arr items)) ->
  (forall props, Forall (fun kv => P (snd kv)) props -> P (Obj props)) ->
  forall v, P v.
Proof.
  intros HP HA HO. fix IH 1. intros [p|items|props].
  - apply HP.
  - apply HA. induction items as [|x xs IHxs]; constructor; [apply IH|apply IHxs].
  - apply HO. induction props as [|[k x] ps IHps]; constructor; [apply IH|apply IHps].
Qed.

Lemma prim_eqb_eq (a b : prim) : prim_eqb a b = true <-> a = b.
Proof.
  destruct a, b; simpl; split; intro H; try congruence; try discriminate.
  - apply Bool.eqb_prop in H. congruence.
  - inversion H. apply Bool.eqb_reflx.
  - apply Z.eqb_eq in H. congruence.
  - inversion H. apply Z.eqb_refl.
  - apply String.eqb_eq in H. congruence.
  - inversion H. apply String.eqb_refl.
Qed.

Lemma jsval_eqb_eq (a b : jsval) : jsval_eqb a b = true <-> a = b.
Proof.
  revert b. induction a as [p|items IH|props IH] using jsval_induction; intros [q|ys|qs];
    simpl; try (split; [discriminate|congruence]).
  - rewrite prim_eqb_eq. split; congruence.
  - assert (G : forall ys',
      (fix items (xs ys : list jsval) {struct xs} : bool :=
         match xs, ys with
         | [], [] => true
         | x :: xs', y :: ys' => jsval_eqb x y && items xs' ys'
         | _, _ => false
         end) items ys' = true <-> items = ys').
    { induction IH as [|x xs Hx Hxs IHxs]; intros [|y ys']; simpl;
        try (split; [discriminate|congruence]); [tauto|].
      rewrite andb_true_iff, Hx, IHxs. split; [intros [-> ->]; reflexivity|].
      intro E. inversion E. auto. }
    rewrite G. split; congruence.
  - assert (G : forall qs',
      (fix props (ps qs : list (string * jsval)) {struct ps} : bool :=
         match ps, qs with
         | [], [] => true
         | (k, x) :: ps', (l, y) :: qs' =>
             String.eqb k l && jsval_eqb x y && props ps' qs'
         | _, _ => false
         end) props qs' = true <-> props = qs').
    { induction IH as [|[k x] ps Hx Hps IHps]; intros [|[l y] qs']; simpl;
        try (split; [discriminate|congruence]); [tauto|].
      simpl in Hx.
      rewrite !andb_true_iff, String.eqb_eq, Hx, IHps.
      split; [intros [[-> ->] ->]; reflexivity|].
      intro E. inversion E. auto. }
    rewrite G. split; congruence.
Qed.

Lemma same_value_zero_eq (a b : ident) : same_value_zero a b = true <-> a = b.
Proof.
  destruct a as [p|x v], b as [q|y w]; simpl; try (split; [discriminate|congruence]).
  - rewrite prim_eqb_eq. split; congruence.
  - rewrite andb_true_iff, Nat.eqb_eq, jsval_eqb_eq. split.
    + intros [-> ->]. reflexivity.
    + intro E. inversion E. auto.
Qed.

Lemma same_value_zero_refl (a : ident) : same_value_zero a a = true.
Proof. now apply same_value_zero_eq. Qed.

Lemma same_value_zero_neq (a b : ident) : same_value_zero a b = false <-> a <> b.
Proof.
  rewrite <- same_value_zero_eq. destruct (same_value_zero a b); split; congruence.
Qed.

Lemma same_value_zero_reflect (a b : ident) : reflect (a = b) (same_value_zero a b).
Proof.
  destruct (same_value_zero a b) eqn:E; constructor.
  - now apply same_value_zero_eq.
  - now apply same_value_zero_neq.
Qed.

(** ** Maps *)

Module JsMapFacts.
Section Facts.
Variable V : Type.
Implicit Types (m : JsMap.t V) (k : ident) (v : V).

Lemma get_set_eq k v m : JsMap.get k (JsMap.set k v m) = Some v.
Proof.
  induction m as [|[k' v'] m IH]; simpl.
  - now rewrite same_value_zero_refl.
  - destruct (same_value_zero k' k) eqn:E; simpl; rewrite E; auto.
Qed.

Lemma get_set_ne k k' v m : k <> k' -> JsMap.get k' (JsMap.set k v m) = JsMap.get k' m.
Proof.
  intro Hne. induction m as [|[k0 v0] m IH]; simpl.
  - now apply same_value_zero_neq in Hne as ->.
  - destruct (same_value_zero_reflect k0 k); subst; simpl.
    + now apply same_value_zero_neq in Hne as ->.
    + now rewrite IH.
Qed.

Lemma get_delete_eq k m : JsMap.get k (JsMap.delete k m) = None.
Proof.
  induction m as [|[k' v'] m IH]; simpl; auto.
  destruct (same_value_zero k' k) eqn:E; simpl; auto. now rewrite E.
Qed.

Lemma get_delete_ne k k' m : k <> k' -> JsMap.get k' (JsMap.delete k m) = JsMap.get k' m.
Proof.
  intro Hne. induction m as [|[k0 v0] m IH]; simpl; auto.
  destruct (same_value_zero_reflect k0 k); subst; simpl.
  - now apply same_value_zero_neq in Hne as ->.
  - now rewrite IH.
Qed.

Lemma set_same k v m : JsMap.get k m = Some v -> JsMap.set k v m = m.
Proof.
  induction m as [|[k' v'] m IH]; simpl; [discriminate|].
  destruct (same_value_zero k' k); intro H.
  - congruence.
  - now rewrite IH.
Qed.

Lemma delete_absent k m : JsMap.get k m = None -> JsMap.delete k m = m.
Proof.
  induction m as [|[k' v'] m IH]; simpl; auto.
  destruct (same_value_zero k' k); intro H; [discriminate|]. now rewrite IH.
Qed.

Lemma set_not_empty k v m : JsMap.set k v m <> [].
Proof. destruct m as [|[k' v'] m]; simpl; [|destruct (same_value_zero k' k)]; discriminate. Qed.

Lemma get_In k v m : JsMap.get k m = Some v -> In (k, v) m.
Proof.
  induction m as [|[k' v'] m IH]; simpl; [discriminate|].
  destruct (same_value_zero_reflect k' k); subst; intro H.
  - left. congruence.
  - right. auto.
Qed.

Lemma In_get k v m : NoDup (JsMap.keys m) -> In (k, v) m -> JsMap.get k m = Some v.
Proof.
  induction m as [|[k' v'] m IH]; simpl; [tauto|].
  intros Hnd [Heq|Hin]; inversion Hnd; subst.
  - inversion Heq; subst. now rewrite same_value_zero_refl.
  - destruct (same_value_zero_reflect k' k); subst; auto.
    exfalso. apply H1. change k with (fst (k, v)). now apply in_map.
Qed.

Lemma keys_set k v m k' :
  In k' (JsMap.keys (JsMap.set k v m)) <-> k' = k \/ In k' (JsMap.keys m).
Proof.
  induction m as [|[k0 v0] m IH]; simpl.
  - intuition congruence.
  - destruct (same_value_zero_reflect k0 k); subst; simpl.
    + intuition congruence.
    + rewrite IH. tauto.
Qed.

Lemma keys_delete k m k' :
  In k' (JsMap.keys (JsMap.delete k m)) <-> k' <> k /\ In k' (JsMap.keys m).
Proof.
  induction m as [|[k0 v0] m IH]; simpl.
  - tauto.
  - destruct (same_value_zero_reflect k0 k); subst; simpl.
    + rewrite IH. intuition congruence.
    + rewrite IH. intuition congruence.
Qed.

Lemma NoDup_set k v m : NoDup (JsMap.keys m) -> NoDup (JsMap.keys (JsMap.set k v m)).
Proof.
  induction m as [|[k0 v0] m IH]; simpl; intro Hnd.
  - constructor; [tauto|constructor].
  - inversion Hnd; subst.
    destruct (same_value_zero_reflect k0 k); subst; simpl.
    + now constructor.
    + constructor; auto. rewrite keys_set. intuition congruence.
Qed.

Lemma NoDup_delete k m : NoDup (JsMap.keys m) -> NoDup (JsMap.keys (JsMap.delete k m)).
Proof.
  induction m as [|[k0 v0] m IH]; simpl; intro Hnd; auto.
  inversion Hnd; subst.
  destruct (same_value_zero_reflect k0 k); subst; simpl; auto.
  constructor; auto. rewrite keys_delete. tauto.
Qed.

Lemma In_set k v m k' v' :
  In (k', v') (JsMap.set k v m) -> (k' = k /\ v' = v) \/ (k' <> k /\ In (k', v') m)
                                   \/ (k' = k /\ In (k', v') m).
Proof.
  induction m as [|[k0 v0] m IH]; simpl.
  - intros [H|[]]. inversion H. auto.
  - destruct (same_value_zero_reflect k0 k); subst; simpl.
    + intros [H|H]; [inversion H; auto|].
      destruct (same_value_zero_reflect k' k); subst; auto.
    + intros [H|H]; [inversion H; subst; right; left; auto|].
      destruct (IH H) as [?|[[? ?]|[? ?]]]; auto.
Qed.

Lemma In_delete k m k' v' :
  In (k', v') (JsMap.delete k m) <-> k' <> k /\ In (k', v') m.
Proof.
  induction m as [|[k0 v0] m IH]; simpl.
  - tauto.
  - destruct (same_value_zero_reflect k0 k); subst; simpl.
    + rewrite IH. split; [tauto|]. intros [Hne [H|H]]; [inversion H; congruence|auto].
    + rewrite IH. split.
      * intros [H|H]; [inversion H; subst; auto|tauto].
      * tauto.
Qed.

End Facts.
End JsMapFacts.
Import JsMapFacts.

(** ** Effects *)

Lemma sent_app (a b : list effect) : sent (a ++ b) = sent a ++ sent b.
Proof. unfold sent. apply flat_map_app. Qed.

Lemma sent_frames (l : list (nat * jsval)) : sent (map frame l) = l.
Proof. induction l as [|[ws m] l IH]; simpl; congruence. Qed.

(** ** The registry seen through [participants] *)

Lemma registered_participants (r u : ident) (rs : registry) :
  registered r u rs = JsMap.get u (participants r rs).
Proof. unfold registered, participants. now destruct (JsMap.get r rs). Qed.

Lemma participants_set_eq (r : ident) (c : room) (rs : registry) :
  participants r (JsMap.set r c rs) = c.
Proof. unfold participants. now rewrite get_set_eq. Qed.

Lemma participants_set_ne (r r' : ident) (c : room) (rs : registry) :
  r <> r' -> participants r' (JsMap.set r c rs) = participants r' rs.
Proof. intro H. unfold participants. now rewrite get_set_ne. Qed.

Lemma participants_delete_eq (r : ident) (rs : registry) :
  participants r (JsMap.delete r rs) = [].
Proof. unfold participants. now rewrite get_delete_eq. Qed.

Lemma participants_delete_ne (r r' : ident) (rs : registry) :
  r <> r' -> participants r' (JsMap.delete r rs) = participants r' rs.
Proof. intro H. unfold participants. now rewrite get_delete_ne. Qed.

Lemma size_zero (V : Type) (m : JsMap.t V) : Nat.eqb (JsMap.size m) 0 = true <-> m = [].
Proof. destruct m; simpl; split; congruence. Qed.

Lemma well_formed_set (r : ident) (c : room) (rs : registry) :
  well_formed rs -> NoDup (JsMap.keys c) -> well_formed (JsMap.set r c rs).
Proof.
  intros [Hk Hin] Hc. split.
  - now apply NoDup_set.
  - intros r' c' H. apply In_set in H as [[_ ->]|[[_ H]|[_ H]]]; eauto.
Qed.

Lemma well_formed_delete (r : ident) (rs : registry) :
  well_formed rs -> well_formed (JsMap.delete r rs).
Proof.
  intros [Hk Hin]. split.
  - now apply NoDup_delete.
  - intros r' c' H. apply In_delete in H as [_ H]. eauto.
Qed.

Lemma well_formed_participants (r : ident) (rs : registry) :
  well_formed rs -> NoDup (JsMap.keys (participants r rs)).
Proof.
  intros [_ Hin]. unfold participants.
  destruct (JsMap.get r rs) as [c|] eqn:E; [|constructor].
  apply get_In in E. eauto.
Qed.

(** ** Who a broadcast reaches *)

Lemma In_others (sid : string) (clients : room) (c : client) :
  In c (others sid clients) <-> (exists u, In (u, c) clients) /\ socketId c <> sid.
Proof.
  unfold others. rewrite in_map_iff. split.
  - intros [[u c'] [E H]]. simpl in E. subst c'. apply filter_In in H as [H1 H2].
    simpl in H2. split; [eauto|]. intro E. rewrite E, String.eqb_refl in H2. discriminate.
  - intros [[u H] Hne]. exists (u, c). split; [reflexivity|].
    apply filter_In. split; [assumption|]. simpl.
    destruct (String.eqb_spec (socketId c) sid); [contradiction|reflexivity].
Qed.

Lemma In_deliveries (open : nat -> bool) (m : jsval) (cs : list client) (f : nat * jsval) :
  In f (deliveries open m cs)
  <-> exists c, In c cs /\ open (socket c) = true /\ f = (socket c, m).
Proof.
  unfold deliveries. rewrite in_flat_map. split.
  - intros [c [H1 H2]]. exists c. destruct (open (socket c)); [|destruct H2].
    destruct H2 as [H2|[]]. auto.
  - intros [c [H1 [H2 H3]]]. exists c. rewrite H2. split; [assumption|now left].
Qed.

Lemma reached_incl (t : transport) (own : nat) (cs : list client) (c : client) :
  In c (reached t own cs) -> In c cs.
Proof.
  induction cs as [|c' cs IH]; simpl; [tauto|].
  destruct (refused t own (socket c')); [intros []|]. intros [H|H]; auto.
Qed.

Lemma reached_all (t : transport) (own : nat) (cs : list client) :
  blocked t own cs = false -> reached t own cs = cs.
Proof.
  unfold blocked. induction cs as [|c cs IH]; simpl; [reflexivity|].
  destruct (refused t own (socket c)); simpl; [discriminate|]. intro H. now rewrite IH.
Qed.

Lemma blocked_In (t : transport) (own : nat) (cs : list client) :
  blocked t own cs = true <-> exists c, In c cs /\ refused t own (socket c) = true.
Proof. unfold blocked. apply existsb_exists. Qed.

(** A frame of a broadcast goes to an OPEN socket of a client of the room
    that does not carry the excluded identifier. *)
Lemma deliveries_target (t : transport) (own : nat) (f f' : jsval) (sid : string)
    (clients : room) (ws : nat) :
  In (ws, f') (deliveries (ready t) f (reached t own (others sid clients))) ->
  f' = f /\ ready t ws = true
  /\ exists u c, In (u, c) clients /\ socket c = ws /\ socketId c <> sid.
Proof.
  intro H. apply In_deliveries in H as [c [Hc [Hready E]]]. inversion E; subst.
  apply reached_incl, In_others in Hc as [[u Hu] Hsid]. eauto 10.
Qed.

Lemma In_sent (out : list effect) (ws : nat) (f : jsval) :
  In (Send ws f) out <-> In (ws, f) (sent out).
Proof.
  unfold sent. rewrite in_flat_map. split.
  - intro H. exists (Send ws f). split; [assumption|now left].
  - intros [e [H1 H2]]. destruct e as [ws' f'| | |]; try destruct H2.
    + inversion H. now subst.
    + destruct H.
Qed.

Section HandlerFacts.
Variable t : transport.

Lemma broadcastToRoom_frames (own : nat) (rs : registry) (r : ident) (m : jsval)
    (sid : string) :
  broadcastToRoom t own rs r m sid
  = (map frame (deliveries (ready t) m (reached t own (others sid (participants r rs)))),
     blocked t own (others sid (participants r rs))).
Proof.
  unfold broadcastToRoom, participants.
  destruct (JsMap.get r rs) as [clients|]; [|reflexivity].
  unfold others, deliveries, blocked, sendToClient.
  induction clients as [|[u c] clients IH]; simpl; [reflexivity|].
  destruct (String.eqb (socketId c) sid); simpl; [now rewrite IH|].
  destruct (refused t own (socket c)); simpl; [reflexivity|].
  rewrite IH. destruct (ready t (socket c)); reflexivity.
Qed.

Lemma sent_broadcastToRoom (own : nat) (rs : registry) (r : ident) (m : jsval)
    (sid : string) :
  sent (fst (broadcastToRoom t own rs r m sid))
  = deliveries (ready t) m (reached t own (others sid (participants r rs))).
Proof. rewrite broadcastToRoom_frames. apply sent_frames. Qed.

Lemma broadcastToRoom_nobody (own : nat) (rs : registry) (r : ident) (m : jsval)
    (sid : string) :
  participants r rs = [] -> broadcastToRoom t own rs r m sid = ([], false).
Proof. intro H. rewrite broadcastToRoom_frames, H. reflexivity. Qed.

(** *** [handleLeaveRoom] *)

Variables (server : nat) (sid : string) (data : message).

Lemma fst_handleLeaveRoom (rs : registry) :
  fst (handleLeaveRoom t server sid data rs)
  = match JsMap.get (roomId data) rs with
    | Some clients =>
        if template [userId data; roomId data]
           && Nat.eqb (JsMap.size (JsMap.delete (userId data) clients)) 0
        then JsMap.delete (roomId data)
               (JsMap.set (roomId data) (JsMap.delete (userId data) clients) rs)
        else JsMap.set (roomId data) (JsMap.delete (userId data) clients) rs
    | None => rs
    end.
Proof.
  unfold handleLeaveRoom. destruct (JsMap.get (roomId data) rs) as [clients|]; [|reflexivity].
  destruct (template _); [|reflexivity]. cbn [negb andb].
  destruct (Nat.eqb _ 0) eqn:Z.
  - apply size_zero in Z. rewrite Z.
    rewrite broadcastToRoom_nobody by apply participants_set_eq. reflexivity.
  - now destruct (snd _).
Qed.

Lemma threw_handleLeaveRoom (rs : registry) :
  threw (handleLeaveRoom t server sid data rs)
  = match JsMap.get (roomId data) rs with
    | Some clients =>
        negb (template [userId data; roomId data])
        || blocked t server (others sid (JsMap.delete (userId data) clients))
    | None => false
    end.
Proof.
  unfold handleLeaveRoom. destruct (JsMap.get (roomId data) rs) as [clients|]; [|reflexivity].
  destruct (template _); [|reflexivity]. cbn [negb orb].
  rewrite broadcastToRoom_frames, participants_set_eq. cbn [snd].
  destruct (blocked _ _ _); [reflexivity|]. now destruct (Nat.eqb _ 0).
Qed.

Lemma effects_handleLeaveRoom (rs : registry) (clients : room) :
  JsMap.get (roomId data) rs = Some clients ->
  template [userId data; roomId data] = true ->
  let rest := JsMap.delete (userId data) clients in
  let b := broadcastToRoom t server (JsMap.set (roomId data) rest rs) (roomId data)
             (peer_left (roomId data) (userId data)) sid in
  effects (handleLeaveRoom t server sid data rs)
  = [ConsoleLog (UserLeft (userId data) (roomId data));
     ConsoleLog (RoomHas (roomId data) (JsMap.size rest))]
      ++ fst b
      ++ (if negb (snd b) && Nat.eqb (JsMap.size rest) 0
          then [ConsoleLog (RoomRemoved (roomId data))] else []).
Proof.
  intros Hget Htemplate rest b. unfold handleLeaveRoom. rewrite Hget, Htemplate.
  cbn [negb]. fold rest. fold b.
  destruct (snd b); cbn [negb andb].
  - unfold effects. cbn [snd fst]. now rewrite app_nil_r.
  - destruct (Nat.eqb _ 0); unfold effects; cbn [snd fst].
    + now rewrite <- app_assoc.
    + now rewrite app_nil_r.
Qed.

Lemma participants_leave_eq (rs : registry) :
  participants (roomId data) (fst (handleLeaveRoom t server sid data rs))
  = JsMap.delete (userId data) (participants (roomId data) rs).
Proof.
  rewrite fst_handleLeaveRoom. unfold participants at 2.
  destruct (JsMap.get (roomId data) rs) as [clients|] eqn:E.
  - destruct (template _ && Nat.eqb _ 0) eqn:Z.
    + apply andb_true_iff in Z as [_ Z]. apply size_zero in Z. rewrite Z.
      apply participants_delete_eq.
    + apply participants_set_eq.
  - simpl. unfold participants. now rewrite E.
Qed.

Lemma get_leave_ne (rs : registry) (r' : ident) :
  roomId data <> r' ->
  JsMap.get r' (fst (handleLeaveRoom t server sid data rs)) = JsMap.get r' rs.
Proof.
  intro H. rewrite fst_handleLeaveRoom.
  destruct (JsMap.get (roomId data) rs) as [clients|] eqn:E; [|reflexivity].
  destruct (template _ && Nat.eqb _ 0).
  - now rewrite get_delete_ne, get_set_ne.
  - now rewrite get_set_ne.
Qed.

Lemma participants_leave_ne (rs : registry) (r' : ident) :
  roomId data <> r' ->
  participants r' (fst (handleLeaveRoom t server sid data rs)) = participants r' rs.
Proof. intro H. unfold participants. now rewrite get_leave_ne. Qed.

Lemma sent_leave (rs : registry) :
  sent (effects (handleLeaveRoom t server sid data rs))
  = if template [userId data; roomId data]
    then deliveries (ready t) (peer_left (roomId data) (userId data))
           (reached t server
              (others sid (JsMap.delete (userId data) (participants (roomId data) rs))))
    else [].
Proof.
  unfold participants.
  destruct (JsMap.get (roomId data) rs) as [clients|] eqn:E.
  - destruct (template [userId data; roomId data]) eqn:T.
    + rewrite (effects_handleLeaveRoom rs clients E T).
      rewrite !sent_app, sent_broadcastToRoom, participants_set_eq. simpl.
      destruct (_ && _); simpl; now rewrite app_nil_r.
    + unfold handleLeaveRoom. now rewrite E, T.
  - unfold handleLeaveRoom. rewrite E. now destruct (template _).
Qed.

Lemma registered_leave_eq (rs : registry) :
  registered (roomId data) (userId data) (fst (handleLeaveRoom t server sid data rs))
  = None.
Proof. rewrite registered_participants, participants_leave_eq. apply get_delete_eq. Qed.

Lemma registered_leave_ne (rs : registry) (r' u' : ident) :
  (r', u') <> (roomId data, userId data) ->
  registered r' u' (fst (handleLeaveRoom t server sid data rs)) = registered r' u' rs.
Proof.
  intro H. rewrite !registered_participants.
  destruct (same_value_zero_reflect (roomId data) r') as [<-|Hr].
  - rewrite participants_leave_eq. apply get_delete_ne. congruence.
  - now rewrite participants_leave_ne.
Qed.

Lemma well_formed_leave (rs : registry) :
  well_formed rs -> well_formed (fst (handleLeaveRoom t server sid data rs)).
Proof.
  intro H. rewrite fst_handleLeaveRoom.
  destruct (JsMap.get (roomId data) rs) as [clients|] eqn:E; [|exact H].
  assert (Hc : NoDup (JsMap.keys (JsMap.delete (userId data) clients))).
  { apply NoDup_delete. apply get_In in E. destruct H as [_ H]. eauto. }
  destruct (template _ && Nat.eqb _ 0).
  - now apply well_formed_delete, well_formed_set.
  - now apply well_formed_set.
Qed.

End HandlerFacts.

Section JoinFacts.
Variable t : transport.
Variables (server : nat) (sid : string) (data : message).

Abbreviation joined := ({| socket := server; socketId := sid |}).

Lemma fst_handleJoinRoom (rs : registry) :
  fst (handleJoinRoom t server sid data rs)
  = match JsMap.get (roomId data) rs with
    | Some clients =>
        JsMap.set (roomId data) (JsMap.set (userId data) joined clients) rs
    | None =>
        JsMap.set (roomId data) [(userId data, joined)] (JsMap.set (roomId data) [] rs)
    end.
Proof.
  unfold handleJoinRoom, JsMap.has, participants.
  destruct (negb (template _)); cbv beta iota zeta delta [fst];
    destruct (JsMap.get (roomId data) rs) as [clients|] eqn:E; cbn [negb];
    rewrite ?E, ?get_set_eq; reflexivity.
Qed.

Lemma get_join_eq (rs : registry) :
  JsMap.get (roomId data) (fst (handleJoinRoom t server sid data rs))
  = Some (JsMap.set (userId data) joined (participants (roomId data) rs)).
Proof.
  rewrite fst_handleJoinRoom. unfold participants.
  destruct (JsMap.get (roomId data) rs); now rewrite get_set_eq.
Qed.

Lemma get_join_ne (rs : registry) (r' : ident) :
  roomId data <> r' ->
  JsMap.get r' (fst (handleJoinRoom t server sid data rs)) = JsMap.get r' rs.
Proof.
  intro H. rewrite fst_handleJoinRoom.
  destruct (JsMap.get (roomId data) rs); now rewrite !get_set_ne.
Qed.

Lemma participants_join_eq (rs : registry) :
  participants (roomId data) (fst (handleJoinRoom t server sid data rs))
  = JsMap.set (userId data) joined (participants (roomId data) rs).
Proof. unfold participants at 1. now rewrite get_join_eq. Qed.

Lemma participants_join_ne (rs : registry) (r' : ident) :
  roomId data <> r' ->
  participants r' (fst (handleJoinRoom t server sid data rs)) = participants r' rs.
Proof. intro H. unfold participants. now rewrite get_join_ne. Qed.

Lemma registered_join_eq (rs : registry) :
  registered (roomId data) (userId data) (fst (handleJoinRoom t server sid data rs))
  = Some joined.
Proof. rewrite registered_participants, participants_join_eq. apply get_set_eq. Qed.

Lemma registered_join_ne (rs : registry) (r' u' : ident) :
  (r', u') <> (roomId data, userId data) ->
  registered r' u' (fst (handleJoinRoom t server sid data rs)) = registered r' u' rs.
Proof.
  intro H. rewrite !registered_participants.
  destruct (same_value_zero_reflect (roomId data) r') as [<-|Hr].
  - rewrite participants_join_eq. apply get_set_ne. congruence.
  - now rewrite participants_join_ne.
Qed.

(** What a join does after it has written its entry. *)
Lemma snd_handleJoinRoom (rs : registry) :
  let rs' := fst (handleJoinRoom t server sid data rs) in
  let b := broadcastToRoom t server rs' (roomId data)
             (peer_joined (roomId data) (userId data)) sid in
  snd (handleJoinRoom t server sid data rs)
  = if template [userId data; roomId data]
    then ([ConsoleLog (UserJoined (userId data) (roomId data));
           ConsoleLog (RoomHas (roomId data) (JsMap.size (participants (roomId data) rs')))]
            ++ fst b, snd b)
    else ([], true).
Proof.
  intros rs' b. subst b rs'. unfold handleJoinRoom.
  destruct (template _); cbn [negb fst snd]; [|reflexivity].
  now rewrite participants_set_eq.
Qed.

Lemma sent_join (rs : registry) :
  sent (effects (handleJoinRoom t server sid data rs))
  = if template [userId data; roomId data]
    then deliveries (ready t) (peer_joined (roomId data) (userId data))
           (reached t server
              (others sid (JsMap.set (userId data) joined (participants (roomId data) rs))))
    else [].
Proof.
  unfold effects. rewrite snd_handleJoinRoom. destruct (template _); [|reflexivity].
  cbn [fst]. rewrite sent_app, sent_broadcastToRoom, participants_join_eq. reflexivity.
Qed.


Lemma well_formed_join (rs : registry) :
  well_formed rs -> well_formed (fst (handleJoinRoom t server sid data rs)).
Proof.
  intro H. rewrite fst_handleJoinRoom.
  destruct (JsMap.get (roomId data) rs) as [clients|] eqn:E.
  - apply well_formed_set; [exact H|]. apply NoDup_set.
    apply get_In in E. destruct H as [_ H]. eauto.
  - apply well_formed_set; [apply well_formed_set; [exact H|constructor]|].
    constructor; [intros []|constructor].
Qed.

End JoinFacts.

(** ** What every listener preserves *)

Lemma fst_caught (o : outcome) : fst (caught o) = fst o.
Proof. reflexivity. Qed.

(** The registry a message leaves behind is the one of its handler, if it
    has a handler that writes. *)
Lemma fst_messageListener (v : variant) (t : transport) (server : nat) (sid : string)
    (data : inbound) (rs : registry) :
  fst (messageListener v t server sid data rs)
  = match data with
    | Json m =>
        if is_string (type m) "join-room" then fst (handleJoinRoom t server sid m rs)
        else if is_string (type m) "leave-room" then fst (handleLeaveRoom t server sid m rs)
        else rs
    | _ => rs
    end.
Proof.
  destruct data as [| |m]; [reflexivity|reflexivity|]. unfold messageListener.
  destruct (is_string (type m) "join-room"); [reflexivity|].
  destruct (is_string (type m) "leave-room"); [reflexivity|].
  unfold handleOffer, handleAnswer, handleIceCandidate.
  destruct (is_string (type m) "offer"); [reflexivity|].
  destruct (is_string (type m) "answer"); [reflexivity|].
  destruct (is_string (type m) "ice-candidate"); [reflexivity|].
  destruct v; [reflexivity|]. now destruct (is_string (type m) "heartbeat").
Qed.

Section Preservation.
Variable P : registry -> Prop.
Variable Q : effect -> Prop.
Variable t : transport.
Variables (server : nat) (sid : string).

Lemma messageListener_preserves (v : variant) (data : inbound) (rs : registry) :
  (forall m, data = Json m -> is_string (type m) "join-room" = true ->
     P (fst (handleJoinRoom t server sid m rs))) ->
  (forall m, data = Json m -> P (fst (handleLeaveRoom t server sid m rs))) ->
  P rs -> P (fst (messageListener v t server sid data rs)).
Proof.
  intros Hjoin Hleave H. rewrite fst_messageListener.
  destruct data as [| |m]; auto.
  destruct (is_string (type m) "join-room") eqn:E; auto.
  destruct (is_string (type m) "leave-room"); auto.
Qed.

Hypothesis P_leave : forall data rs,
  P rs -> P (fst (handleLeaveRoom t server sid data rs)).
Hypothesis Q_leave : forall data rs e,
  P rs -> In e (effects (handleLeaveRoom t server sid data rs)) -> Q e.

Abbreviation kept st := (P (fst st) /\ forall e, In e (effects st) -> Q e).

Lemma closeEntry_keeps (r u : ident) (st : outcome) :
  kept st -> kept (closeEntry t server sid r u st).
Proof.
  intros [H1 H2]. unfold closeEntry.
  destruct (threw st); [now split|].
  destruct (registered r u (fst st)) as [c|]; [|now split].
  destruct (String.eqb (socketId c) sid); [|now split].
  split; [now apply P_leave|]. unfold effects. cbn [fst snd].
  intros e He. apply in_app_or in He as [He|He]; [now apply H2|]. eapply Q_leave; eauto.
Qed.

Lemma closeRoom_keeps (r : ident) (st : outcome) :
  kept st -> kept (closeRoom t server sid st r).
Proof.
  intro H. unfold closeRoom.
  destruct (JsMap.get r (fst st)) as [clients|]; auto.
  generalize dependent st.
  induction (JsMap.keys clients) as [|u us IH]; simpl; intros st H; auto.
  apply IH. now apply closeEntry_keeps.
Qed.

Lemma closeListener_keeps (rs : registry) :
  P rs -> kept (closeListener t server sid rs).
Proof.
  intro H. unfold closeListener.
  assert (G : forall ks st, kept st -> kept (fold_left (closeRoom t server sid) ks st)).
  { induction ks as [|k ks IH]; simpl; intros st Hst; auto.
    apply IH. now apply closeRoom_keeps. }
  apply G. split; [exact H|intros e []].
Qed.

End Preservation.

Lemma closeListener_preserves (P : registry -> Prop) (t : transport) (server : nat)
    (sid : string) (rs : registry) :
  (forall data rs, P rs -> P (fst (handleLeaveRoom t server sid data rs))) ->
  P rs -> P (fst (closeListener t server sid rs)).
Proof.
  intros Hleave H.
  now destruct (closeListener_keeps P (fun _ => True) t server sid Hleave
                  (fun _ _ _ _ _ => I) rs H).
Qed.

(** ** The close listener *)

Lemma pair_cases (a b : ident * ident) : a = b \/ a <> b.
Proof.
  destruct a as [r u], b as [r' u'].
  destruct (same_value_zero_reflect r r'), (same_value_zero_reflect u u');
    subst; auto; right; congruence.
Qed.


Lemma In_memberships_in (sid : string) (r : ident) (clients : room) (r' u : ident) :
  In (r', u) (memberships_in sid r clients)
  <-> r' = r /\ exists c, In (u, c) clients /\ socketId c = sid.
Proof.
  unfold memberships_in. rewrite in_flat_map. split.
  - intros [[u0 c] [Hin H]]. simpl in H.
    destruct (String.eqb_spec (socketId c) sid); [|contradiction].
    destruct H as [H|[]]. inversion H; subst. eauto.
  - intros [-> [c [Hin Hs]]]. exists (u, c). split; [assumption|].
    simpl. rewrite Hs, String.eqb_refl. now left.
Qed.

Lemma NoDup_memberships_in (sid : string) (r : ident) (clients : room) :
  NoDup (JsMap.keys clients) -> NoDup (memberships_in sid r clients).
Proof.
  induction clients as [|[u c] clients IH]; simpl; intro H; [constructor|].
  inversion H as [|? ? Hfresh Hrest]; subst.
  destruct (String.eqb (socketId c) sid); simpl; auto.
  constructor; auto.
  intro Hin. apply In_memberships_in in Hin as [_ [c' [Hin _]]].
  apply Hfresh. change u with (fst (u, c')). now apply in_map.
Qed.

Lemma In_findMemberships (sid : string) (rs : registry) (r u : ident) :
  In (r, u) (findMemberships sid rs)
  <-> exists clients c, In (r, clients) rs /\ In (u, c) clients /\ socketId c = sid.
Proof.
  unfold findMemberships. rewrite in_flat_map. split.
  - intros [[r0 clients] [Hin H]]. apply In_memberships_in in H as [-> [c [H1 H2]]].
    simpl in *. eauto.
  - intros [clients [c [H1 [H2 H3]]]]. exists (r, clients). split; [assumption|].
    apply In_memberships_in. eauto.
Qed.

Lemma In_findMemberships_registered (sid : string) (rs : registry) (r u : ident) :
  well_formed rs ->
  In (r, u) (findMemberships sid rs)
  <-> exists c, registered r u rs = Some c /\ socketId c = sid.
Proof.
  intros [Hk Hin]. rewrite In_findMemberships. unfold registered. split.
  - intros [clients [c [H1 [H2 H3]]]]. exists c. split; [|assumption].
    rewrite (In_get _ _ _ _ Hk H1). apply In_get; eauto.
  - intros [c [H1 H2]]. destruct (JsMap.get r rs) as [clients|] eqn:E; [|discriminate].
    exists clients, c. auto using get_In.
Qed.

Lemma NoDup_findMemberships (sid : string) (rs : registry) :
  well_formed rs -> NoDup (findMemberships sid rs).
Proof.
  intros [Hk Hin]. induction rs as [|[r clients] rs IH]; simpl; [constructor|].
  inversion Hk as [|? ? Hfresh Hrest]; subst. apply NoDup_app.
  - apply NoDup_memberships_in. apply (Hin r). now left.
  - apply IH; [assumption|]. intros r' c' H. apply (Hin r'). now right.
  - intros [r' u] Ha Hb. apply In_memberships_in in Ha as [-> _].
    apply In_findMemberships in Hb as [c' [_ [Hb _]]].
    apply Hfresh. change r with (fst (r, c')). now apply in_map.
Qed.

Section CloseFacts.
Variable t : transport.
Variables (server : nat) (sid : string).

Abbreviation leave r u rs := (handleLeaveRoom t server sid (membership r u) rs).

Lemma leaveAll_app (ms ms' : list (ident * ident)) (st : outcome) :
  leaveAll t server sid (ms ++ ms') st
  = leaveAll t server sid ms' (leaveAll t server sid ms st).
Proof. apply fold_left_app. Qed.

Lemma leaveAll_step (ru : ident * ident) (ms : list (ident * ident)) (st : outcome) :
  leaveAll t server sid (ru :: ms) st
  = leaveAll t server sid ms (leaveNext t server sid st ru).
Proof. reflexivity. Qed.

(** Once an exception is raised nothing more is done. *)
Lemma leaveAll_threw (ms : list (ident * ident)) (st : outcome) :
  threw st = true -> leaveAll t server sid ms st = st.
Proof.
  induction ms as [|ru ms IH]; intro H; [reflexivity|].
  rewrite leaveAll_step. unfold leaveNext. rewrite H. now apply IH.
Qed.

Lemma leaveAll_cons (r u : ident) (ms : list (ident * ident)) (st : outcome) :
  threw st = false ->
  leaveAll t server sid ((r, u) :: ms) st
  = leaveAll t server sid ms
      (fst (leave r u (fst st)),
       (effects st ++ effects (leave r u (fst st)), threw (leave r u (fst st)))).
Proof. intro H. rewrite leaveAll_step. unfold leaveNext. now rewrite H. Qed.

Lemma get_leaveAll_ne (ms : list (ident * ident)) (st : outcome) (r' : ident) :
  (forall ru, In ru ms -> fst ru <> r') ->
  JsMap.get r' (fst (leaveAll t server sid ms st)) = JsMap.get r' (fst st).
Proof.
  revert st. induction ms as [|[r u] ms IH]; intros st H; [reflexivity|].
  rewrite leaveAll_step, IH by (intros; apply H; now right).
  unfold leaveNext. destruct (threw st); [reflexivity|].
  apply (get_leave_ne t server sid (membership r u)). apply (H (r, u)). now left.
Qed.

Lemma registered_leaveAll_ne (ms : list (ident * ident)) (st : outcome) (r u : ident) :
  ~ In (r, u) ms ->
  registered r u (fst (leaveAll t server sid ms st)) = registered r u (fst st).
Proof.
  revert st. induction ms as [|[r0 u0] ms IH]; intros st H; [reflexivity|].
  rewrite leaveAll_step, IH by (intro; apply H; now right).
  unfold leaveNext. destruct (threw st); [reflexivity|].
  apply (registered_leave_ne t server sid (membership r0 u0)). simpl.
  intro E. apply H. left. congruence.
Qed.

Lemma registered_leave_None (data : message) (rs : registry) (r u : ident) :
  registered r u rs = None ->
  registered r u (fst (handleLeaveRoom t server sid data rs)) = None.
Proof.
  intro H. destruct (pair_cases (r, u) (roomId data, userId data)) as [E|E].
  - inversion E. apply registered_leave_eq.
  - now rewrite registered_leave_ne.
Qed.

Lemma registered_leaveAll_None (ms : list (ident * ident)) (st : outcome) (r u : ident) :
  registered r u (fst st) = None ->
  registered r u (fst (leaveAll t server sid ms st)) = None.
Proof.
  revert st. induction ms as [|[r0 u0] ms IH]; intros st H; [assumption|].
  rewrite leaveAll_step. apply IH. unfold leaveNext.
  destruct (threw st); [assumption|]. now apply registered_leave_None.
Qed.

(** When no exception is raised every membership is left. *)
Lemma registered_leaveAll_In (ms : list (ident * ident)) (st : outcome) (r u : ident) :
  threw (leaveAll t server sid ms st) = false ->
  In (r, u) ms -> registered r u (fst (leaveAll t server sid ms st)) = None.
Proof.
  revert st. induction ms as [|[r0 u0] ms IH]; intros st Hthrew H; [destruct H|].
  destruct (threw st) eqn:E.
  { rewrite leaveAll_threw in Hthrew by assumption. congruence. }
  rewrite leaveAll_cons in * by assumption.
  destruct H as [H|H]; [|now apply IH].
  inversion H; subst. apply registered_leaveAll_None.
  apply (registered_leave_eq t server sid (membership r u)).
Qed.

Lemma closeEntry_threw (r u : ident) (st : outcome) :
  threw st = true -> closeEntry t server sid r u st = st.
Proof. intro H. unfold closeEntry. now rewrite H. Qed.

Lemma closeEntries_threw (r : ident) (us : list ident) (st : outcome) :
  threw st = true ->
  fold_left (fun st' u => closeEntry t server sid r u st') us st = st.
Proof.
  induction us as [|u us IH]; intro H; [reflexivity|].
  simpl. rewrite closeEntry_threw by assumption. now apply IH.
Qed.

(** The walk over the users of one room. *)
Lemma closeEntries_leaveAll (r : ident) (us : room) (st : outcome) :
  NoDup (JsMap.keys us) ->
  (threw st = false -> forall u c, In (u, c) us -> registered r u (fst st) = Some c) ->
  fold_left (fun st' u => closeEntry t server sid r u st') (JsMap.keys us) st
  = leaveAll t server sid (memberships_in sid r us) st.
Proof.
  revert st. induction us as [|[u c] us IH]; intros st Hnd Hreg; [reflexivity|].
  destruct (threw st) eqn:E.
  { now rewrite closeEntries_threw, leaveAll_threw. }
  specialize (Hreg eq_refl).
  inversion Hnd as [|? ? Hfresh Hnd']; subst.
  cbn [JsMap.keys map fold_left fst]. unfold closeEntry at 2.
  rewrite E, (Hreg u c) by now left.
  assert (Hrest : forall st1 : outcome,
            (forall u', u' <> u -> registered r u' (fst st1) = registered r u' (fst st)) ->
            forall u' (c' : client), In (u', c') us -> registered r u' (fst st1) = Some c').
  { intros st1 Hsame u' c' Hin. rewrite Hsame; [apply Hreg; now right|].
    intros ->. apply Hfresh. change u with (fst (u, c')). now apply in_map. }
  unfold memberships_in. cbn [flat_map snd fst].
  destruct (String.eqb (socketId c) sid).
  - cbn [app]. rewrite leaveAll_cons by assumption.
    apply IH; [assumption|]. intros _. apply Hrest. intros u' Hne. cbn [fst].
    apply (registered_leave_ne t server sid (membership r u)). simpl. congruence.
  - cbn [app]. apply IH; [assumption|]. intros _. apply Hrest. reflexivity.
Qed.

Lemma closeRoom_leaveAll (r : ident) (clients : room) (st : outcome) :
  NoDup (JsMap.keys clients) ->
  (threw st = false -> JsMap.get r (fst st) = Some clients) ->
  closeRoom t server sid st r = leaveAll t server sid (memberships_in sid r clients) st.
Proof.
  intros Hnd Hget. unfold closeRoom.
  destruct (threw st) eqn:E.
  { rewrite leaveAll_threw by assumption.
    destruct (JsMap.get r (fst st)); [now apply closeEntries_threw|reflexivity]. }
  rewrite (Hget eq_refl).
  apply closeEntries_leaveAll; [assumption|].
  intros _ u c Hin. unfold registered. rewrite (Hget eq_refl). now apply In_get.
Qed.

(** The walk over the rooms. *)
Lemma closeRooms_leaveAll (es : registry) (st : outcome) :
  well_formed es ->
  (threw st = false ->
   forall r clients, In (r, clients) es -> JsMap.get r (fst st) = Some clients) ->
  fold_left (closeRoom t server sid) (JsMap.keys es) st
  = leaveAll t server sid (findMemberships sid es) st.
Proof.
  revert st. induction es as [|[r clients] es IH]; simpl; intros st [Hk Hin] Hget;
    [reflexivity|].
  inversion Hk as [|? ? Hfresh Hk']; subst.
  change (flat_map _ clients) with (memberships_in sid r clients).
  rewrite leaveAll_app.
  rewrite (@closeRoom_leaveAll r clients);
    [|apply (Hin r); now left|intro E; apply (Hget E); now left].
  apply IH.
  - split; [assumption|]. intros r' c' H. apply (Hin r'). now right.
  - intros Hthrew r' c' H. rewrite get_leaveAll_ne.
    + apply Hget; [|now right].
      destruct (threw st) eqn:E; [|reflexivity].
      rewrite leaveAll_threw in Hthrew by assumption. congruence.
    + intros [r0 u0] H0. apply In_memberships_in in H0 as [-> _]. simpl.
      intros ->. apply Hfresh. change r' with (fst (r', c')). now apply in_map.
Qed.

Lemma closeListener_leaveAll (rs : registry) :
  well_formed rs ->
  closeListener t server sid rs
  = leaveAll t server sid (findMemberships sid rs) (rs, ([], false)).
Proof.
  intro H. unfold closeListener. apply closeRooms_leaveAll; [assumption|].
  intros _ r clients Hin. simpl. destruct H as [Hk _]. now apply In_get.
Qed.

End CloseFacts.

(** ** Invariants of the worker *)

Lemma is_string_eq (ty : jsval) (s : string) : is_string ty s = true -> ty = Prim (Str s).
Proof.
  destruct ty as [[| | | |s']| |]; simpl; try discriminate.
  intro H. apply String.eqb_eq in H. congruence.
Qed.

Lemma invariant_initial : invariant initial.
Proof.
  split.
  - split; [constructor|intros r c []].
  - intros r u c H. discriminate.
Qed.

Section Steps.
Variable v : variant.
Variable t : transport.

(** The registry after a step is the registry before it put through a
    listener of an accepted connection, if through any. *)
Lemma rooms_step (P : registry -> Prop) (e : event) (w : world) :
  (forall server sid m,
     nth_error (sockets w) server = Some sid ->
     e = OnMessage server (Json m) -> is_string (type m) "join-room" = true ->
     P (fst (handleJoinRoom t server sid m (rooms w)))) ->
  (forall server sid data rs,
     P rs -> P (fst (handleLeaveRoom t server sid data rs))) ->
  P (rooms w) -> P (rooms (fst (step v t e w))).
Proof.
  intros Hjoin Hleave H. destruct e as [rnd|server data|server]; simpl.
  - unfold handleWebSocket. destruct v; exact H.
  - unfold onMessage. destruct (nth_error (sockets w) server) as [sid|] eqn:E; [|exact H].
    simpl. apply messageListener_preserves; auto.
    intros m -> Hm. now apply Hjoin.
  - unfold onClose. destruct (nth_error (sockets w) server) as [sid|] eqn:E; [|exact H].
    assert (Hc : P (fst (closeListener t server sid (rooms w))))
      by (apply closeListener_preserves; auto).
    destruct v; exact Hc.
Qed.

Lemma sockets_step (e : event) (w : world) (n : nat) (sid : string) :
  nth_error (sockets w) n = Some sid ->
  nth_error (sockets (fst (step v t e w))) n = Some sid.
Proof.
  intro H. destruct e as [rnd|server data|server]; simpl.
  - assert (Hn : n < List.length (sockets w)) by (apply nth_error_Some; congruence).
    unfold handleWebSocket. destruct v; simpl; now rewrite nth_error_app1.
  - unfold onMessage. now destruct (nth_error (sockets w) server).
  - unfold onClose. destruct (nth_error (sockets w) server); [destruct v|]; exact H.
Qed.

Lemma invariant_step (e : event) (w : world) :
  invariant w -> invariant (fst (step v t e w)).
Proof.
  intros [Hwf Hco]. split.
  - apply rooms_step; auto using well_formed_join, well_formed_leave.
  - unfold consistent.
    apply rooms_step
      with (P := fun rs => forall r u c, registered r u rs = Some c ->
                   nth_error (sockets (fst (step v t e w))) (socket c)
                   = Some (socketId c)).
    + intros server sid m Hsock _ _ r u c Hreg.
      destruct (pair_cases (r, u) (roomId m, userId m)) as [E|E].
      * inversion E; subst. rewrite registered_join_eq in Hreg.
        inversion Hreg; subst. simpl. now apply sockets_step.
      * rewrite registered_join_ne in Hreg by assumption. apply sockets_step. eauto.
    + intros server sid data rs H r u c Hreg.
      destruct (pair_cases (r, u) (roomId data, userId data)) as [E|E].
      * inversion E; subst. rewrite registered_leave_eq in Hreg. discriminate.
      * rewrite registered_leave_ne in Hreg by assumption. eauto.
    + intros r u c Hreg. apply sockets_step. eauto.
Qed.

End Steps.

Lemma invariant_run (v : variant) (es : list (transport * event)) (w : world) :
  invariant w -> invariant (run v es w).
Proof.
  revert w. induction es as [|[t e] es IH]; simpl; intros w H; [exact H|].
  apply IH. now apply invariant_step.
Qed.

(** ** The listeners, case by case *)

Lemma dispatch_leave (v : variant) (t : transport) (server : nat) (sid : string)
    (m : message) (rs : registry) :
  is_string (type m) "leave-room" = true ->
  messageListener v t server sid (Json m) rs = caught (handleLeaveRoom t server sid m rs).
Proof. intro H. apply is_string_eq in H. unfold messageListener. now rewrite H. Qed.

Lemma dispatch_join (v : variant) (t : transport) (server : nat) (sid : string)
    (m : message) (rs : registry) :
  is_string (type m) "join-room" = true ->
  messageListener v t server sid (Json m) rs = caught (handleJoinRoom t server sid m rs).
Proof. intro H. apply is_string_eq in H. unfold messageListener. now rewrite H. Qed.

Lemma dispatch_relayed (v : variant) (t : transport) (server : nat) (sid : string)
    (m : message) (out : jsval) (rs : registry) :
  relayed m = Some out ->
  messageListener v t server sid (Json m) rs
  = caught (rs, broadcastToRoom t server rs (roomId m) out sid).
Proof.
  unfold relayed, messageListener. intro H.
  destruct (is_string (type m) "offer") eqn:E1.
  - apply is_string_eq in E1. rewrite E1. simpl. unfold handleOffer. congruence.
  - destruct (is_string (type m) "answer") eqn:E2.
    + apply is_string_eq in E2. rewrite E2. simpl. unfold handleAnswer. congruence.
    + destruct (is_string (type m) "ice-candidate") eqn:E3; [|discriminate].
      apply is_string_eq in E3. rewrite E3. simpl. unfold handleIceCandidate. congruence.
Qed.

Lemma dispatch_unhandled (v : variant) (t : transport) (server : nat) (sid : string)
    (m : message) (rs : registry) :
  handled v (type m) = false ->
  messageListener v t server sid (Json m) rs = (rs, [ConsoleLog (UnknownType (type m))]).
Proof.
  unfold handled, messageListener. intro H.
  repeat (apply orb_false_iff in H; destruct H as [H ?]).
  repeat match goal with E : is_string _ _ = false |- _ => rewrite E; clear E end.
  destruct v; [reflexivity|].
  match goal with E : is_string _ _ = false |- _ => now rewrite E end.
Qed.

Lemma sent_caught (o : outcome) : sent (snd (caught o)) = sent (effects o).
Proof.
  unfold caught. cbn [snd]. destruct (threw o); [|reflexivity].
  rewrite sent_app. apply app_nil_r.
Qed.

Lemma sent_escaped (o : outcome) : sent (escaped o) = sent (effects o).
Proof.
  unfold escaped. destruct (threw o); [|reflexivity]. rewrite sent_app. apply app_nil_r.
Qed.



Lemma world_eta (w : world) :
  {| rooms := rooms w; sockets := sockets w; activeConnections := activeConnections w |} = w.
Proof. now destruct w. Qed.

Lemma onMessage_accepted (v : variant) (t : transport) (X : nat) (sid : string)
    (data : inbound) (w : world) :
  nth_error (sockets w) X = Some sid ->
  rooms (fst (step v t (OnMessage X data) w))
  = fst (messageListener v t X sid data (rooms w))
  /\ snd (step v t (OnMessage X data) w)
     = snd (messageListener v t X sid data (rooms w)).
Proof. intro H. unfold step, onMessage. rewrite H. now split. Qed.

Lemma onClose_rooms (v : variant) (t : transport) (X : nat) (sid : string) (w : world) :
  nth_error (sockets w) X = Some sid ->
  rooms (fst (step v t (OnClose X) w)) = fst (closeListener t X sid (rooms w))
  /\ sent (snd (step v t (OnClose X) w)) = sent (effects (closeListener t X sid (rooms w))).
Proof.
  intro H. unfold step, onClose. rewrite H. destruct v; simpl.
  - split; [reflexivity|apply sent_escaped].
  - split; [reflexivity|]. rewrite sent_app, sent_escaped. unfold checkIdleShutdown.
    now destruct (Z.eqb _ 0).
Qed.

(** A client found in a room of a state the worker reaches is not the
    socket of a connection with another identifier. *)
Lemma participant_of_other_id (w : world) (X : nat) (sid : string) (r u : ident)
    (c : client) :
  invariant w -> nth_error (sockets w) X = Some sid ->
  In (u, c) (participants r (rooms w)) -> socketId c <> sid ->
  socket c <> X /\ socket c < List.length (sockets w).
Proof.
  intros [Hwf Hco] Hsock Hin Hsid.
  assert (Hreg : registered r u (rooms w) = Some c).
  { rewrite registered_participants. apply In_get; [|assumption].
    now apply well_formed_participants. }
  apply Hco in Hreg. split.
  - intro E. rewrite E in Hreg. congruence.
  - apply nth_error_Some. congruence.
Qed.

(** The socket the handler runs for is never refused. *)
Lemma refused_own (t : transport) (own : nat) : refused t own own = false.
Proof. unfold refused. now rewrite Nat.eqb_refl. Qed.

Lemma sendToClient_own (t : transport) (own : nat) (m : jsval) :
  sendToClient t own own m = (if ready t own then [Send own m] else [], false).
Proof. unfold sendToClient. rewrite refused_own. now destruct (ready t own). Qed.

(** ** Frames of the handlers *)

Lemma leave_frames (t : transport) (server : nat) (sid : string) (data : message)
    (rs : registry) (ws : nat) (f : jsval) :
  In (Send ws f) (effects (handleLeaveRoom t server sid data rs)) ->
  f = peer_left (roomId data) (userId data) /\ ready t ws = true
  /\ exists u c,
       In (u, c) (participants (roomId data) (fst (handleLeaveRoom t server sid data rs)))
       /\ socket c = ws /\ socketId c <> sid.
Proof.
  intro H. apply In_sent in H. rewrite sent_leave in H.
  destruct (template _); [|destruct H].
  rewrite <- (participants_leave_eq t server sid data rs) in H.
  now apply deliveries_target in H.
Qed.

Lemma join_frames (t : transport) (server : nat) (sid : string) (data : message)
    (rs : registry) (ws : nat) (f : jsval) :
  In (Send ws f) (effects (handleJoinRoom t server sid data rs)) ->
  f = peer_joined (roomId data) (userId data) /\ ready t ws = true
  /\ exists u c,
       In (u, c) (participants (roomId data) (fst (handleJoinRoom t server sid data rs)))
       /\ socket c = ws /\ socketId c <> sid.
Proof.
  intro H. apply In_sent in H. rewrite sent_join in H.
  destruct (template _); [|destruct H].
  rewrite <- (participants_join_eq t server sid data rs) in H.
  now apply deliveries_target in H.
Qed.

Lemma broadcast_frames (t : transport) (own : nat) (rs : registry) (r : ident)
    (m : jsval) (sid : string) (ws : nat) (f : jsval) :
  In (Send ws f) (fst (broadcastToRoom t own rs r m sid)) ->
  f = m /\ ready t ws = true
  /\ exists u c, In (u, c) (participants r rs) /\ socket c = ws /\ socketId c <> sid.
Proof.
  intro H. apply In_sent in H. rewrite sent_broadcastToRoom in H.
  now apply deliveries_target in H.
Qed.

Lemma In_Send_caught (o : outcome) (ws : nat) (f : jsval) :
  In (Send ws f) (snd (caught o)) <-> In (Send ws f) (effects o).
Proof. now rewrite !In_sent, sent_caught. Qed.

(** ** The scenarios on the Workers runtime *)

Example two_peers_rooms :
  rooms (run WorkerJs two_peers initial)
  = [ (lobby, [ (alice, {| socket := 0; socketId := "socket_x" |});
                (bob, {| socket := 1; socketId := "socket_y" |}) ]) ].
Proof. reflexivity. Qed.

(** Bob is registered; the broadcast of his join throws at the socket of
    alice, which another request accepted, and alice is sent nothing. *)
Example bob_joining_throws :
  step WorkerJs isolated (OnMessage 1 (Json (msg "join-room" lobby bob)))
    (run WorkerJs (firstn 3 two_peers) initial)
  = (run WorkerJs two_peers initial,
     [ ConsoleLog (UserJoined bob lobby); ConsoleLog (RoomHas lobby 2); ConsoleError ]).
Proof. reflexivity. Qed.

(** ** Broadcasting *)

(** C1.  [broadcastToRoom] calls [sendToClient] for the clients of the room
    whose [socketId] is not the excluded one, in the order of the room, and
    nothing between the two catches an exception.  So the broadcast gets to
    the clients that come before the first whose socket the runtime
    refuses, sends the message to those of them whose socket is OPEN, and
    throws at that client: no client after it is sent the message.  Every
    frame carries the message and goes to a client of the room; a room that
    is absent gives no effect and no exception; the broadcast throws
    exactly when the runtime refuses the socket of a client it is for.  Once
    the only participant of a room has left, the room is gone and an
    [offer] naming it changes nothing and has no effect.  On the Workers
    runtime, with alice and bob in the lobby on two connections, a
    broadcast from the connection of alice sends bob nothing and throws. *)
Theorem broadcast_stops_at_first_throw (t : transport) (own : nat) (rs : registry)
    (r : ident) (m : jsval) (sid : string) :
  let cs := others sid (participants r rs) in
  let b := broadcastToRoom t own rs r m sid in
  b = (map frame (deliveries (ready t) m (reached t own cs)), blocked t own cs)
  /\ (forall e, In e (fst b) ->
        exists u c, In (u, c) (participants r rs) /\ socketId c <> sid
                    /\ ready t (socket c) = true /\ e = Send (socket c) m)
  /\ (JsMap.has r rs = false -> b = ([], false))
  /\ (forall u c, registered r u rs = Some c -> socketId c <> sid ->
        refused t own (socket c) = true -> snd b = true)
  /\ (snd b = true ->
        exists u c, In (u, c) (participants r rs) /\ socketId c <> sid
                    /\ refused t own (socket c) = true)
  /\ (forall v server u c t' server' sid' offer',
        JsMap.get r rs = Some [(u, c)] -> template [u; r] = true ->
        is_string (type offer') "offer" = true -> roomId offer' = r ->
        let rs1 := fst (messageListener v t server sid (Json (msg "leave-room" r u)) rs) in
        JsMap.has r rs1 = false
        /\ messageListener v t' server' sid' (Json offer') rs1 = (rs1, []))
  /\ broadcastToRoom isolated 0 (rooms (run WorkerJs two_peers initial)) lobby m "socket_x"
     = ([], true).
Proof.
  intros cs b. unfold b, cs. rewrite broadcastToRoom_frames. cbn [fst snd].
  split; [reflexivity|]. split; [|split; [|split; [|split; [|split]]]].
  - intros e He. apply in_map_iff in He as [f [<- Hf]].
    apply In_deliveries in Hf as [c [Hc [Hready ->]]].
    apply reached_incl, In_others in Hc as [[u Hu] Hsid]. exists u, c. auto.
  - unfold JsMap.has, participants. now destruct (JsMap.get r rs).
  - intros u c Hreg Hsid Href. apply blocked_In. exists c. split; [|assumption].
    apply In_others. split; [|assumption]. exists u.
    rewrite registered_participants in Hreg. now apply get_In.
  - intro H. apply blocked_In in H as [c [Hc Href]].
    apply In_others in Hc as [[u Hu] Hsid]. eauto.
  - intros v server u c t' server' sid' offer' Hget Htemplate Htype Hroom.
    set (rs1 := fst (messageListener v t server sid (Json (msg "leave-room" r u)) rs)).
    assert (Hgone : JsMap.get r rs1 = None).
    { unfold rs1. rewrite dispatch_leave, fst_caught by reflexivity.
      rewrite (fst_handleLeaveRoom t server sid (msg "leave-room" r u)).
      cbn [roomId userId msg]. rewrite Hget, Htemplate. cbn [JsMap.delete].
      rewrite same_value_zero_refl. cbn [JsMap.size List.length Nat.eqb andb].
      apply get_delete_eq. }
    split.
    + unfold JsMap.has. now rewrite Hgone.
    + assert (Hoffer : relayed offer' = Some (Obj [("type", Prim (Str "offer"));
                                                    ("sender", sender offer');
                                                    ("offer", offer offer')]))
        by (unfold relayed; now rewrite Htype).
      rewrite (dispatch_relayed v t' server' sid' _ _ rs1 Hoffer).
      rewrite broadcastToRoom_nobody; [reflexivity|].
      unfold participants. now rewrite Hroom, Hgone.
  - reflexivity.
Qed.

Lemma broadcast_stops_at_first_throw_witness :
  snd (broadcastToRoom isolated 0 (rooms (run WorkerJs two_peers initial)) lobby
         (peer_left lobby alice) "socket_x")
  = true.
Proof.
  apply (proj1 (proj2 (proj2 (proj2
           (broadcast_stops_at_first_throw isolated 0
              (rooms (run WorkerJs two_peers initial)) lobby
              (peer_left lobby alice) "socket_x"))))
           bob {| socket := 1; socketId := "socket_y" |}).
  - reflexivity.
  - discriminate.
  - reflexivity.
Defined.

(** ** Leaving *)

Lemma delete_delete (V : Type) (k : ident) (m : JsMap.t V) :
  JsMap.delete k (JsMap.delete k m) = JsMap.delete k m.
Proof. apply delete_absent, get_delete_eq. Qed.

Lemma set_set (V : Type) (k : ident) (v v' : V) (m : JsMap.t V) :
  JsMap.set k v (JsMap.set k v' m) = JsMap.set k v m.
Proof.
  induction m as [|[k0 v0] m IH]; simpl.
  - now rewrite same_value_zero_refl.
  - destruct (same_value_zero k0 k) eqn:E; simpl; rewrite E; [reflexivity|].
    now rewrite IH.
Qed.

(** A second leave of the same pair, when the room is still there, is the
    first one over again. *)
Lemma leave_again (t : transport) (server : nat) (sid : string) (data : message)
    (rs : registry) (clients : room) :
  JsMap.get (roomId data) rs = Some clients ->
  let rest := JsMap.delete (userId data) clients in
  let rs1 := JsMap.set (roomId data) rest rs in
  handleLeaveRoom t server sid data rs1 = handleLeaveRoom t server sid data rs.
Proof.
  intros Hget rest rs1. unfold handleLeaveRoom. unfold rs1 at 1.
  rewrite get_set_eq, Hget. unfold rest. rewrite delete_delete. fold rest.
  unfold rs1. now rewrite set_set.
Qed.

(** C2, as the code has it.  [handleLeaveRoom] returns nothing and does not
    look at whether it removed an entry.  When the room is absent it does
    nothing.  When the room is present, whether or not the user is in it,
    the user is no longer registered afterwards; with identifiers that have
    a string form the effects are the two log lines, then one [peer-left]
    broadcast over the clients that remain, which throws if the runtime
    refuses one of their sockets, then the log line of the removal of the
    room if the broadcast did not throw and none remains.  A second call
    right after the first leaves the registry as the first left it; it
    does nothing when the first call removed the room, and otherwise it
    does again all that the first did: the same log lines, the same
    broadcast, the same exception. *)
Theorem leave_broadcasts_when_room_present (t : transport) (server : nat)
    (sid : string) (data : message) (rs : registry) :
  let r := roomId data in
  let u := userId data in
  let first := handleLeaveRoom t server sid data rs in
  let second := handleLeaveRoom t server sid data (fst first) in
  (JsMap.get r rs = None -> first = (rs, ([], false)))
  /\ (forall clients, JsMap.get r rs = Some clients -> template [u; r] = true ->
        let rest := JsMap.delete u clients in
        let b := broadcastToRoom t server (JsMap.set r rest rs) r (peer_left r u) sid in
        effects first
        = [ConsoleLog (UserLeft u r); ConsoleLog (RoomHas r (JsMap.size rest))]
            ++ fst b
            ++ (if negb (snd b) && Nat.eqb (JsMap.size rest) 0
                then [ConsoleLog (RoomRemoved r)] else [])
        /\ threw first = snd b
        /\ JsMap.has r (fst first) = negb (Nat.eqb (JsMap.size rest) 0))
  /\ registered r u (fst first) = None
  /\ fst second = fst first
  /\ (JsMap.has r (fst first) = true -> snd second = snd first)
  /\ (JsMap.has r (fst first) = false -> snd second = ([], false)).
Proof.
  intros r u first second. subst r u.
  assert (Hcases :
    (JsMap.get (roomId data) (fst first) = None
     /\ second = (fst first, ([], false)))
    \/ (JsMap.has (roomId data) (fst first) = true /\ second = first)).
  { unfold second, first. rewrite fst_handleLeaveRoom.
    destruct (JsMap.get (roomId data) rs) as [clients|] eqn:E.
    - destruct (template _ && Nat.eqb _ 0).
      + left. split; [apply get_delete_eq|].
        unfold handleLeaveRoom. now rewrite get_delete_eq.
      + right. split.
        * unfold JsMap.has. now rewrite get_set_eq.
        * now apply leave_again.
    - left. split; [exact E|]. unfold handleLeaveRoom. now rewrite E. }
  split; [|split; [|split; [|split; [|split]]]].
  - intro H. unfold first, handleLeaveRoom. now rewrite H.
  - intros clients H Htemplate rest b.
    split; [now apply effects_handleLeaveRoom|]. split.
    + unfold first. rewrite threw_handleLeaveRoom, H, Htemplate. cbn [negb orb].
      unfold b. rewrite broadcastToRoom_frames, participants_set_eq. reflexivity.
    + unfold first. rewrite fst_handleLeaveRoom, H, Htemplate. cbn [andb]. fold rest.
      unfold JsMap.has. destruct (Nat.eqb _ 0); cbn [negb].
      * now rewrite get_delete_eq.
      * now rewrite get_set_eq.
  - apply registered_leave_eq.
  - destruct Hcases as [[_ ->]|[_ ->]]; reflexivity.
  - intro H. destruct Hcases as [[Hnone _]|[_ ->]]; [|reflexivity].
    unfold JsMap.has in H. rewrite Hnone in H. discriminate.
  - intro H. destruct Hcases as [[_ ->]|[Hhas _]]; [reflexivity|congruence].
Qed.

Lemma leave_broadcasts_when_room_present_witness :
  let rs := rooms (run WorkerJs two_peers initial) in
  let leave := msg "leave-room" lobby alice in
  snd (handleLeaveRoom isolated 0 "socket_x" leave
         (fst (handleLeaveRoom isolated 0 "socket_x" leave rs)))
  = snd (handleLeaveRoom isolated 0 "socket_x" leave rs).
Proof.
  apply (proj1 (proj2 (proj2 (proj2 (proj2
           (leave_broadcasts_when_room_present isolated 0 "socket_x"
              (msg "leave-room" lobby alice)
              (rooms (run WorkerJs two_peers initial)))))))).
  reflexivity.
Defined.

(** C2 as the specification words it fails.  Alice and bob are in the
    lobby and alice leaves twice.  The second call finds nothing to
    remove; it does not stop there: it logs the departure again and runs
    the [peer-left] broadcast again, which throws at the socket of bob as
    the first did, so that the listener logs the error a second time. *)
Lemma second_leave_broadcasts_again :
  let rs := rooms (run WorkerJs two_peers initial) in
  let leave := msg "leave-room" lobby alice in
  let first := handleLeaveRoom isolated 0 "socket_x" leave rs in
  let second := handleLeaveRoom isolated 0 "socket_x" leave (fst first) in
  registered lobby alice (fst first) = None
  /\ fst second = fst first
  /\ second
     = (fst first,
        ([ConsoleLog (UserLeft alice lobby); ConsoleLog (RoomHas lobby 1)]
           ++ fst (broadcastToRoom isolated 0 (fst first) lobby (peer_left lobby alice)
                     "socket_x"),
         snd (broadcastToRoom isolated 0 (fst first) lobby (peer_left lobby alice)
                "socket_x")))
  /\ threw second = true
  /\ snd (messageListener WorkerJs isolated 0 "socket_x" (Json leave) (fst first))
     = [ConsoleLog (UserLeft alice lobby); ConsoleLog (RoomHas lobby 1); ConsoleError].
Proof. repeat split. Qed.

(** ** Rooms left empty *)

Example nameless_visit_rooms (v : variant) :
  rooms (run v (firstn 2 nameless_visit) initial)
  = [(lobby, [(nameless, {| socket := 0; socketId := "socket_x" |})])]
  /\ rooms (run v nameless_visit initial) = [(lobby, [])].
Proof. destruct v; split; reflexivity. Qed.

Lemma template_pair (u r : ident) :
  template [u; r] = true <-> printable u = true /\ printable r = true.
Proof. unfold template. simpl. rewrite !andb_true_iff. tauto. Qed.

Section Tidy.
Variable t : transport.
Variables (server : nat) (sid : string) (data : message).

Lemma printable_keys_join (rs : registry) :
  template [userId data; roomId data] = true ->
  printable_keys rs -> printable_keys (fst (handleJoinRoom t server sid data rs)).
Proof.
  intros Htemplate H r clients Hget. apply template_pair in Htemplate as [Hu Hr].
  destruct (same_value_zero_reflect (roomId data) r) as [<-|Hne].
  - rewrite get_join_eq in Hget. inversion Hget; subst. split; [assumption|].
    intros u c Hc.
    destruct (same_value_zero_reflect (userId data) u) as [<-|Hneu]; [assumption|].
    rewrite get_set_ne in Hc by assumption. unfold participants in Hc.
    destruct (JsMap.get (roomId data) rs) as [cl|] eqn:E; [|discriminate].
    destruct (H _ _ E) as [_ Hcl]. eauto.
  - rewrite get_join_ne in Hget by assumption. eauto.
Qed.

Lemma get_leave_eq (rs : registry) (clients : room) :
  JsMap.get (roomId data) (fst (handleLeaveRoom t server sid data rs)) = Some clients ->
  exists before,
    JsMap.get (roomId data) rs = Some before /\ clients = JsMap.delete (userId data) before
    /\ (clients = [] -> template [userId data; roomId data] = false).
Proof.
  rewrite fst_handleLeaveRoom.
  destruct (JsMap.get (roomId data) rs) as [before|] eqn:E; [|congruence].
  destruct (template _ && Nat.eqb _ 0) eqn:Z.
  - rewrite get_delete_eq. discriminate.
  - rewrite get_set_eq. intro H. inversion H; subst. exists before.
    split; [reflexivity|]. split; [reflexivity|]. intro Hempty.
    rewrite Hempty in Z. simpl in Z. now rewrite andb_true_r in Z.
Qed.

Lemma printable_keys_leave (rs : registry) :
  printable_keys rs -> printable_keys (fst (handleLeaveRoom t server sid data rs)).
Proof.
  intros H r clients Hget.
  destruct (same_value_zero_reflect (roomId data) r) as [<-|Hne].
  - apply get_leave_eq in Hget as [before [Hb [-> _]]].
    destruct (H _ _ Hb) as [Hr Hcl]. split; [assumption|].
    intros u c Hc.
    destruct (same_value_zero_reflect (userId data) u) as [<-|Hneu].
    + rewrite get_delete_eq in Hc. discriminate.
    + rewrite get_delete_ne in Hc by assumption. eauto.
  - rewrite get_leave_ne in Hget by assumption. eauto.
Qed.

Lemma no_empty_room_join (rs : registry) :
  no_empty_room rs -> no_empty_room (fst (handleJoinRoom t server sid data rs)).
Proof.
  intros H r' c' Hget.
  destruct (same_value_zero_reflect (roomId data) r') as [<-|Hr].
  - rewrite get_join_eq in Hget. inversion Hget. apply set_not_empty.
  - rewrite get_join_ne in Hget by assumption. eauto.
Qed.

(** A leave that throws leaves no empty room behind when the keys of the
    registry have a string form: the log lines do not throw then, and a
    broadcast that throws has found a client in the room. *)
Lemma no_empty_room_leave (rs : registry) :
  printable_keys rs -> no_empty_room rs ->
  no_empty_room (fst (handleLeaveRoom t server sid data rs)).
Proof.
  intros Hp H r' c' Hget.
  destruct (same_value_zero_reflect (roomId data) r') as [<-|Hr].
  - apply get_leave_eq in Hget as [before [Hb [-> Hempty]]]. intro E.
    specialize (Hempty E). destruct (Hp _ _ Hb) as [Hr Hcl].
    assert (Hu : printable (userId data) = false).
    { destruct (printable (userId data)) eqn:Pu; [|reflexivity].
      unfold template in Hempty. simpl in Hempty. now rewrite Pu, Hr in Hempty. }
    assert (Habsent : JsMap.get (userId data) before = None).
    { destruct (JsMap.get (userId data) before) as [c|] eqn:G; [|reflexivity].
      apply Hcl in G. congruence. }
    rewrite delete_absent in E by assumption. now apply (H _ _ Hb).
  - rewrite get_leave_ne in Hget by assumption. eauto.
Qed.

End Tidy.

Lemma tidy_run (v : variant) (es : list (transport * event)) (w : world) :
  printable_joins es = true ->
  printable_keys (rooms w) /\ no_empty_room (rooms w) ->
  printable_keys (rooms (run v es w)) /\ no_empty_room (rooms (run v es w)).
Proof.
  revert w. induction es as [|[t e] es IH]; intros w Hes H; [exact H|].
  simpl in Hes. apply andb_true_iff in Hes as [He Hes].
  simpl. apply IH; [assumption|].
  apply rooms_step with (P := fun rs => printable_keys rs /\ no_empty_room rs);
    [| |exact H].
  - intros server sid m _ -> Hm. rewrite Hm in He. simpl in He.
    apply andb_true_iff in He as [Hr Hu]. destruct H as [H1 H2]. split.
    + apply printable_keys_join; [|assumption]. apply template_pair. now split.
    + now apply no_empty_room_join.
  - intros server sid data rs [H1 H2]. split.
    + now apply printable_keys_leave.
    + now apply no_empty_room_leave.
Qed.

(** C3.  A connection joins the lobby under the user identifier
    [{"toString": null}] and closes.  The join writes the entry and throws
    in its log line.  The close listener calls [handleLeaveRoom], which
    deletes the entry and throws in its log line, before it gets to remove
    the room: the lobby stays in the registry with no participant, in both
    variants.  When every [join-room] of a run carries identifiers that
    have a string form, whatever else the run holds, a room is present
    exactly when it has a participant. *)
Theorem empty_room_left_behind (v : variant) (es : list (transport * event)) (r : ident) :
  (JsMap.has lobby (rooms (run v nameless_visit initial)) = true
   /\ participants lobby (rooms (run v nameless_visit initial)) = [])
  /\ (printable_joins es = true ->
      (JsMap.has r (rooms (run v es initial)) = true
       <-> participants r (rooms (run v es initial)) <> [])
      /\ no_empty_room (rooms (run v es initial))).
Proof.
  split; [destruct v; split; reflexivity|]. intro Hes.
  destruct (tidy_run v es initial Hes) as [_ Hne].
  { split; intros r0 c0 H; discriminate. }
  split; [|exact Hne].
  unfold JsMap.has, participants.
  destruct (JsMap.get r (rooms (run v es initial))) as [clients|] eqn:E.
  - split; [|reflexivity]. intros _. now apply (Hne r).
  - split; [discriminate|]. intro H. now contradiction H.
Qed.

Lemma empty_room_left_behind_witness :
  JsMap.has lobby (rooms (run WorkerJs two_peers initial)) = true
  <-> participants lobby (rooms (run WorkerJs two_peers initial)) <> [].
Proof.
  apply (proj2 (empty_room_left_behind WorkerJs two_peers lobby)).
  reflexivity.
Defined.

(** ** Joining *)






(** ** Closing *)

(** The scenario of the specification on the Workers runtime: the
    connection is in the rooms A and B, and bob is in A on another
    connection. *)
Example close_in_two_rooms :
  let rs := rooms (run WorkerJs two_rooms initial) in
  let X := {| socket := 0; socketId := "socket_x" |} in
  let Y := {| socket := 1; socketId := "socket_y" |} in
  rs = [ (Id (Str "A"), [(Id (Str "u1"), X); (bob, Y)]); (Id (Str "B"), [(Id (Str "u2"), X)]) ]
  /\ findMemberships "socket_x" rs = [(Id (Str "A"), Id (Str "u1")); (Id (Str "B"), Id (Str "u2"))]
  /\ closeListener isolated 0 "socket_x" rs
     = ([ (Id (Str "A"), [(bob, Y)]); (Id (Str "B"), [(Id (Str "u2"), X)]) ],
        ([ConsoleLog (UserLeft (Id (Str "u1")) (Id (Str "A")));
          ConsoleLog (RoomHas (Id (Str "A")) 1)], true))
  /\ snd (step WorkerJs isolated (OnClose 0) (run WorkerJs two_rooms initial))
     = [ConsoleLog (UserLeft (Id (Str "u1")) (Id (Str "A")));
        ConsoleLog (RoomHas (Id (Str "A")) 1); Uncaught].
Proof. repeat split. Qed.

(** C5.  In any state the worker reaches, the close listener of an
    accepted connection does what leaving each membership of the
    connection does, one [handleLeaveRoom] after the other in the order of
    the registry, up to the first one that throws: nothing catches the
    exception, and the listener ends there.  The memberships are the
    entries that carry the [socketId] of the connection, every entry
    registered with its socket among them.  An entry that is not one of
    them is left as it is.  When no [handleLeaveRoom] throws, no membership
    of the connection is left.  When the first one throws, its entry is
    removed and every other membership of the connection stays registered.
    On the Workers runtime, with the connection in the rooms A and B and
    bob in A, the broadcast in A throws at the socket of bob: the
    connection is still registered in B after its close, and nobody is
    sent [peer-left]. *)
Theorem close_stops_at_first_throw (v : variant) (es : list (transport * event))
    (t : transport) (X : nat) (sid : string) :
  let w := run v es initial in
  nth_error (sockets w) X = Some sid ->
  let ms := findMemberships sid (rooms w) in
  let res := closeListener t X sid (rooms w) in
  rooms (fst (step v t (OnClose X) w)) = fst res
  /\ res = leaveAll t X sid ms (rooms w, ([], false))
  /\ NoDup ms
  /\ (forall r u, In (r, u) ms
                  <-> exists c, registered r u (rooms w) = Some c /\ socketId c = sid)
  /\ (forall r u c, registered r u (rooms w) = Some c -> socket c = X -> In (r, u) ms)
  /\ (forall r u, ~ In (r, u) ms -> registered r u (fst res) = registered r u (rooms w))
  /\ (threw res = false -> forall r u, In (r, u) ms -> registered r u (fst res) = None)
  /\ (forall r u ms',
        ms = (r, u) :: ms' ->
        let first := handleLeaveRoom t X sid (membership r u) (rooms w) in
        threw first = true ->
        res = (fst first, (effects first, true))
        /\ registered r u (fst res) = None
        /\ forall r' u', In (r', u') ms' ->
             registered r' u' (fst res) = registered r' u' (rooms w))
  /\ (let rs := rooms (run WorkerJs two_rooms initial) in
      threw (closeListener isolated 0 "socket_x" rs) = true
      /\ registered (Id (Str "B")) (Id (Str "u2")) (fst (closeListener isolated 0 "socket_x" rs))
         = Some {| socket := 0; socketId := "socket_x" |}
      /\ sent (effects (closeListener isolated 0 "socket_x" rs)) = []).
Proof.
  intros w Hsock ms res.
  destruct (invariant_run v es initial invariant_initial) as [Hwf Hco].
  fold w in Hwf, Hco.
  destruct (onClose_rooms v t X sid w Hsock) as [Hrooms _].
  assert (Hres : res = leaveAll t X sid ms (rooms w, ([], false)))
    by now apply closeListener_leaveAll.
  assert (Hms : forall r u, In (r, u) ms
                            <-> exists c, registered r u (rooms w) = Some c /\ socketId c = sid)
    by (intros r u; now apply In_findMemberships_registered).
  assert (Hnd : NoDup ms) by now apply NoDup_findMemberships.
  split; [exact Hrooms|]. split; [exact Hres|]. split; [exact Hnd|]. split; [exact Hms|].
  split; [|split; [|split; [|split]]].
  - intros r u c Hreg HX. apply Hms. exists c. split; [assumption|].
    apply Hco in Hreg. rewrite HX in Hreg. congruence.
  - intros r u H. rewrite Hres. now apply registered_leaveAll_ne.
  - intros Hthrew r u H. rewrite Hres in *. now apply registered_leaveAll_In.
  - intros r u ms' Ems first Hfirst.
    assert (Hend : res = (fst first, (effects first, true))).
    { rewrite Hres, Ems, leaveAll_cons by reflexivity. cbn [fst effects snd app].
      fold first. rewrite Hfirst. now apply leaveAll_threw. }
    split; [exact Hend|]. rewrite Hend. cbn [fst]. split.
    + apply (registered_leave_eq t X sid (membership r u)).
    + intros r' u' Hin. apply (registered_leave_ne t X sid (membership r u)).
      cbn [roomId userId membership]. intro E. inversion E; subst.
      rewrite Ems in Hnd. inversion Hnd. contradiction.
  - repeat split.
Qed.

Lemma close_stops_at_first_throw_witness :
  closeListener isolated 0 "socket_x" (rooms (run WorkerJs two_rooms initial))
  = leaveAll isolated 0 "socket_x"
      [(Id (Str "A"), Id (Str "u1")); (Id (Str "B"), Id (Str "u2"))]
      (rooms (run WorkerJs two_rooms initial), ([], false)).
Proof.
  apply (close_stops_at_first_throw WorkerJs two_rooms isolated 0 "socket_x").
  reflexivity.
Defined.

(** ** Envelopes *)

(** C6, as the code has it.  A message that [JSON.parse] rejects, or that
    parses to [null], leaves the registry as it is and has the
    [console.error] of the [catch] clause as its only effect: nothing is
    sent and no socket is closed.  A message that parses is never refused
    for a field it lacks: the handler of its type runs with [undefined] for
    the field, and the [catch] clause is entered only if the handler
    throws, after what the handler did.  So a [join-room] without [userId]
    registers the connection in the room under the user [undefined]; in a
    room that has nobody it logs the join and no error.  A message whose
    type has no case in the switch, a missing type among them, is logged as
    of unknown type and changes nothing. *)
Theorem malformed_envelope_handling (v : variant) (t : transport) (server : nat)
    (sid : string) (rs : registry) (m : message) (r : ident) :
  messageListener v t server sid SyntaxError rs = (rs, [ConsoleError])
  /\ messageListener v t server sid JsonNull rs = (rs, [ConsoleError])
  /\ (is_string (type m) "join-room" = true ->
        messageListener v t server sid (Json m) rs
        = caught (handleJoinRoom t server sid m rs))
  /\ (is_string (type m) "leave-room" = true ->
        messageListener v t server sid (Json m) rs
        = caught (handleLeaveRoom t server sid m rs))
  /\ (forall out, relayed m = Some out ->
        messageListener v t server sid (Json m) rs
        = caught (rs, broadcastToRoom t server rs (roomId m) out sid))
  /\ registered r (Id Undefined)
       (fst (messageListener v t server sid (Json (msg "join-room" r (Id Undefined))) rs))
     = Some {| socket := server; socketId := sid |}
  /\ (printable r = true -> participants r rs = [] ->
        snd (messageListener v t server sid (Json (msg "join-room" r (Id Undefined))) rs)
        = [ConsoleLog (UserJoined (Id Undefined) r); ConsoleLog (RoomHas r 1)])
  /\ (handled v (type m) = false ->
        messageListener v t server sid (Json m) rs
        = (rs, [ConsoleLog (UnknownType (type m))])).
Proof.
  split; [reflexivity|]. split; [reflexivity|].
  split; [apply dispatch_join|]. split; [apply dispatch_leave|].
  split; [intros out; apply dispatch_relayed|].
  split; [|split; [|apply dispatch_unhandled]].
  - rewrite dispatch_join, fst_caught by reflexivity.
    apply (registered_join_eq t server sid (msg "join-room" r (Id Undefined))).
  - intros Hr Hnobody. rewrite dispatch_join by reflexivity.
    unfold caught, threw, effects. rewrite snd_handleJoinRoom.
    cbn [roomId userId msg]. unfold template. cbn [forallb]. rewrite Hr. cbn [andb printable
      value_of printable_value fst snd].
    rewrite broadcastToRoom_frames.
    rewrite (participants_join_eq t server sid (msg "join-room" r (Id Undefined))).
    cbn [roomId userId msg]. rewrite Hnobody. cbn [JsMap.set others filter map snd socketId].
    destruct (String.eqb_spec sid sid) as [_|Hne]; [|now contradiction Hne].
    reflexivity.
Qed.

Lemma malformed_envelope_handling_witness :
  snd (messageListener WorkerJs isolated 0 "socket_x"
         (Json (msg "join-room" lobby (Id Undefined))) [])
  = [ConsoleLog (UserJoined (Id Undefined) lobby); ConsoleLog (RoomHas lobby 1)].
Proof.
  apply (proj1 (proj2 (proj2 (proj2 (proj2 (proj2 (proj2
           (malformed_envelope_handling WorkerJs isolated 0 "socket_x" []
              (msg "join-room" lobby (Id Undefined)) lobby)))))))); reflexivity.
Defined.

(** C6 as the specification words it fails: a [join-room] for the lobby
    that has no [userId] is not dropped.  It adds an entry to the
    registry, under the user [undefined], and it is logged as a join; no
    error is logged. *)
Lemma join_without_userId_is_not_dropped :
  messageListener WorkerJs isolated 0 "socket_x"
    (Json (msg "join-room" lobby (Id Undefined))) []
  = ([(lobby, [(Id Undefined, {| socket := 0; socketId := "socket_x" |})])],
     [ConsoleLog (UserJoined (Id Undefined) lobby); ConsoleLog (RoomHas lobby 1)]).
Proof. reflexivity. Qed.

(** The scenario of the specification: a type that is not known. *)
Example bogus_type_is_dropped (v : variant) :
  step v isolated (OnMessage 0 (Json (msg "bogus" lobby alice))) (run v two_peers initial)
  = (run v two_peers initial, [ConsoleLog (UnknownType (Prim (Str "bogus")))]).
Proof. destruct v; reflexivity. Qed.

(** ** Relaying *)

(** C7.  In any state the worker reaches, an [offer], an [answer] or an
    [ice-candidate] arriving on an accepted connection X changes nothing in
    the worker.  Its effects are those of one broadcast of the relayed
    message [{ type, sender, payload }], payload as received, over the
    clients of the named room that carry another [socketId] than X: frames
    to those that come before the first whose socket the runtime refuses
    and whose own socket is OPEN, and then, if the runtime refuses one, the
    error the listener logs.  Every frame carries the relayed message and
    goes to a client of the room on another socket than X.  If the room has
    a client of another connection whose socket is not shared, the error
    is logged.  On the Workers runtime, with alice and bob in the lobby,
    the [offer] of alice gets bob nothing but the error in the log. *)
Theorem relay_stops_at_first_throw (v : variant) (es : list (transport * event))
    (t : transport) (X : nat) (sid : string) (m : message) (out : jsval) :
  let w := run v es initial in
  nth_error (sockets w) X = Some sid ->
  relayed m = Some out ->
  let res := step v t (OnMessage X (Json m)) w in
  let cs := others sid (participants (roomId m) (rooms w)) in
  fst res = w
  /\ snd res = map frame (deliveries (ready t) out (reached t X cs))
               ++ (if blocked t X cs then [ConsoleError] else [])
  /\ (forall ws f, In (Send ws f) (snd res) ->
        f = out /\ ws <> X /\ ready t ws = true
        /\ exists u c, In (u, c) (participants (roomId m) (rooms w))
                       /\ socket c = ws /\ socketId c <> sid)
  /\ (forall u c, registered (roomId m) u (rooms w) = Some c -> socketId c <> sid ->
        shared t (socket c) = false -> In ConsoleError (snd res))
  /\ (is_string (type m) "offer" = true ->
        out = Obj [("type", Prim (Str "offer")); ("sender", sender m); ("offer", offer m)])
  /\ (is_string (type m) "answer" = true ->
        out = Obj [("type", Prim (Str "answer")); ("sender", sender m); ("answer", answer m)])
  /\ (is_string (type m) "ice-candidate" = true ->
        out = Obj [("type", Prim (Str "ice-candidate")); ("sender", sender m);
                   ("candidate", candidate m)])
  /\ step WorkerJs isolated (OnMessage 0 (Json offer_of_alice)) (run WorkerJs two_peers initial)
     = (run WorkerJs two_peers initial, [ConsoleError]).
Proof.
  intros w Hsock Hrel res cs.
  assert (Hinv : invariant w) by apply invariant_run, invariant_initial.
  assert (Hres : res = (w, map frame (deliveries (ready t) out (reached t X cs))
                           ++ (if blocked t X cs then [ConsoleError] else []))).
  { unfold res, step, onMessage. rewrite Hsock.
    rewrite (dispatch_relayed v t X sid m out (rooms w) Hrel).
    unfold caught, threw, effects. cbn [fst snd]. rewrite world_eta.
    rewrite broadcastToRoom_frames. cbn [fst snd]. fold cs.
    destruct (blocked t X cs); [reflexivity|now rewrite app_nil_r]. }
  rewrite Hres. cbn [fst snd].
  split; [reflexivity|]. split; [reflexivity|]. split; [|split; [|split; [|split; [|split]]]].
  - intros ws f H. apply in_app_or in H as [H|H].
    + apply in_map_iff in H as [[ws' f'] [E H]]. inversion E; subst.
      apply deliveries_target in H as [-> [Hready [u [c [Hin [<- Hsid]]]]]].
      split; [reflexivity|]. split; [|split; [assumption|eauto]].
      now apply (participant_of_other_id w X sid (roomId m) u c).
    + destruct (blocked t X cs); [|destruct H]. destruct H as [H|[]]. discriminate.
  - intros u c Hreg Hsid Hshared. apply in_or_app. right.
    assert (Hb : blocked t X cs = true).
    { apply blocked_In. exists c.
      assert (Hin : In (u, c) (participants (roomId m) (rooms w))).
      { rewrite registered_participants in Hreg. now apply get_In. }
      split.
      - apply In_others. eauto.
      - unfold refused. rewrite Hshared.
        destruct (participant_of_other_id w X sid (roomId m) u c Hinv Hsock Hin Hsid)
          as [Hne _].
        apply Nat.eqb_neq in Hne. now rewrite Hne. }
    rewrite Hb. now left.
  - intro H. unfold relayed in Hrel. rewrite H in Hrel. congruence.
  - intro H. unfold relayed in Hrel. apply is_string_eq in H. rewrite H in Hrel.
    simpl in Hrel. congruence.
  - intro H. unfold relayed in Hrel. apply is_string_eq in H. rewrite H in Hrel.
    simpl in Hrel. congruence.
  - reflexivity.
Qed.

Lemma relay_stops_at_first_throw_witness :
  snd (step WorkerJs isolated (OnMessage 0 (Json offer_of_alice))
         (run WorkerJs two_peers initial))
  = [ConsoleError].
Proof.
  apply (proj1 (proj2 (relay_stops_at_first_throw WorkerJs two_peers isolated 0 "socket_x"
                         offer_of_alice
                         (Obj [("type", Prim (Str "offer")); ("sender", Prim (Str "alice"));
                               ("offer", offer offer_of_alice)])
                         eq_refl eq_refl))).
Defined.

(** ** Heartbeat *)

(** C8.  On an OPEN connection a [heartbeat] is answered by the on-demand
    variant with [heartbeat-ack] on the socket it came from and nothing
    else, the registry untouched; [worker.js] has no such case and only
    logs the type as unknown. *)
Theorem heartbeat_acknowledged_on_demand_only (t : transport) (server : nat)
    (sid : string) (m : message) (rs : registry) :
  is_string (type m) "heartbeat" = true ->
  ready t server = true ->
  messageListener OnDemand t server sid (Json m) rs = (rs, [Send server heartbeat_ack])
  /\ messageListener WorkerJs t server sid (Json m) rs
     = (rs, [ConsoleLog (UnknownType (type m))]).
Proof.
  intros H Hready. apply is_string_eq in H. unfold messageListener.
  rewrite H, sendToClient_own, Hready. split; reflexivity.
Qed.

Lemma heartbeat_acknowledged_on_demand_only_witness :
  messageListener OnDemand isolated 0 "socket_x"
    (Json (msg "heartbeat" (Id Undefined) (Id Undefined)))
    (rooms (run OnDemand two_peers initial))
  = (rooms (run OnDemand two_peers initial), [Send 0 heartbeat_ack])
  /\ messageListener WorkerJs isolated 0 "socket_x"
       (Json (msg "heartbeat" (Id Undefined) (Id Undefined)))
       (rooms (run WorkerJs two_peers initial))
     = (rooms (run WorkerJs two_peers initial),
        [ConsoleLog (UnknownType (Prim (Str "heartbeat")))]).
Proof.
  split.
  - apply (heartbeat_acknowledged_on_demand_only isolated 0 "socket_x"
             (msg "heartbeat" (Id Undefined) (Id Undefined))); reflexivity.
  - apply (heartbeat_acknowledged_on_demand_only isolated 0 "socket_x"
             (msg "heartbeat" (Id Undefined) (Id Undefined))); reflexivity.
Defined.

(** ** Socket identifiers *)

(** C9.  The identifier is the text ["socket_"] and at most nine digits of
    one draw of [Math.random]; nothing compares it with the identifiers in
    use.  Two connections accepted while [Math.random()] is 0.5, which reads
    ["0.i"] in base 36, carry the same identifier, in either variant; a
    draw of 0 gives no digit at all; and what follows the ninth digit of a
    draw is not looked at. *)
Theorem socketId_collision (v : variant) (tail tail' : string) :
  sockets (run v [(isolated, Upgrade "0.i"); (isolated, Upgrade "0.i")] initial)
  = ["socket_i"; "socket_i"]
  /\ newSocketId "0" = "socket_"
  /\ newSocketId (String.append "0.4fzyo82mv" tail)
     = newSocketId (String.append "0.4fzyo82mv" tail').
Proof. destruct v, tail, tail'; repeat split; reflexivity. Qed.

(** What a collision does: the two connections exclude each other from
    every broadcast, and the close of one evicts the other. *)
Example twins_exclude_each_other (v : variant) :
  let w := run v twins initial in
  rooms w = [ (lobby, [ (alice, {| socket := 0; socketId := "socket_i" |});
                        (bob, {| socket := 1; socketId := "socket_i" |}) ]) ]
  /\ sent (snd (step v isolated (OnMessage 0 (Json offer_of_alice)) w)) = []
  /\ rooms (fst (step v isolated (OnClose 0) w)) = [].
Proof. destruct v; repeat split. Qed.

(** ** Eviction *)



(** * Further properties of the code *)

(** ** More on maps *)

Lemma set_absent (V : Type) (k : ident) (v : V) (m : JsMap.t V) :
  JsMap.get k m = None -> JsMap.set k v m = m ++ [(k, v)].
Proof.
  induction m as [|[k' v'] m IH]; simpl; [reflexivity|].
  destruct (same_value_zero k' k); intro H; [discriminate|]. now rewrite IH.
Qed.

Lemma delete_last (V : Type) (k : ident) (v : V) (m : JsMap.t V) :
  JsMap.get k m = None -> JsMap.delete k (m ++ [(k, v)]) = m.
Proof.
  induction m as [|[k' v'] m IH]; simpl.
  - now rewrite same_value_zero_refl.
  - destruct (same_value_zero k' k); intro H; [discriminate|]. now rewrite IH.
Qed.

Lemma keys_set_present (V : Type) (k : ident) (v v' : V) (m : JsMap.t V) :
  JsMap.get k m = Some v' -> JsMap.keys (JsMap.set k v m) = JsMap.keys m.
Proof.
  induction m as [|[k0 v0] m IH]; simpl; [discriminate|].
  destruct (same_value_zero k0 k); intro H; simpl; [reflexivity|].
  f_equal. now apply IH.
Qed.

(** ** Joining and leaving together *)

(** X1.  A join of a pair that is not registered, followed by a leave of
    the same pair from any connection, gives back the registry as it was,
    rooms and users in their order, provided the room, if it is there, is
    not empty, and, if it is not there, the identifiers have a string form,
    as every primitive identifier has. *)
Theorem join_then_leave_restores (t t' : transport) (server server' : nat)
    (sid sid' : string) (data data' : message) (rs : registry) :
  roomId data' = roomId data -> userId data' = userId data ->
  registered (roomId data) (userId data) rs = None ->
  (forall clients, JsMap.get (roomId data) rs = Some clients -> clients <> []) ->
  (JsMap.has (roomId data) rs = false -> template [userId data; roomId data] = true) ->
  fst (handleLeaveRoom t' server' sid' data'
         (fst (handleJoinRoom t server sid data rs))) = rs.
Proof.
  intros Hr Hu Hreg Hne Htemplate.
  rewrite fst_handleLeaveRoom, Hr, Hu, get_join_eq, fst_handleJoinRoom.
  unfold registered, participants, JsMap.has in *.
  destruct (JsMap.get (roomId data) rs) as [clients|] eqn:E.
  - rewrite (set_absent _ _ _ _ Hreg), delete_last by assumption.
    rewrite set_set, set_same by exact E.
    destruct clients as [|c cs]; [now contradiction (Hne [])|].
    cbn [JsMap.size List.length Nat.eqb]. now rewrite andb_false_r.
  - rewrite (Htemplate eq_refl).
    simpl JsMap.set at 1. simpl JsMap.delete at 1. simpl JsMap.delete at 2.
    rewrite same_value_zero_refl. cbn [JsMap.size List.length Nat.eqb andb].
    rewrite !set_set, (set_absent _ _ _ _ E). now apply delete_last.
Qed.

Lemma join_then_leave_restores_witness :
  fst (handleLeaveRoom isolated 1 "socket_y" (msg "leave-room" lobby (Id (Str "carol")))
         (fst (handleJoinRoom isolated 2 "socket_z" (msg "join-room" lobby (Id (Str "carol")))
                 (rooms (run WorkerJs two_peers initial)))))
  = rooms (run WorkerJs two_peers initial).
Proof.
  apply (join_then_leave_restores isolated isolated 2 1 "socket_z" "socket_y"
           (msg "join-room" lobby (Id (Str "carol")))
           (msg "leave-room" lobby (Id (Str "carol")))
           (rooms (run WorkerJs two_peers initial)));
    try reflexivity.
  intros clients H. inversion H. discriminate.
Defined.

(** X2.  A join of a pair that is registered takes the place of the client
    it replaces: the rooms of the registry and the users of the room keep
    their order, the pair is registered to the joining connection, and no
    other pair changes. *)
Theorem rejoin_keeps_the_place (t : transport) (server : nat) (sid : string)
    (data : message) (rs : registry) (d : client) :
  registered (roomId data) (userId data) rs = Some d ->
  let rs' := fst (handleJoinRoom t server sid data rs) in
  JsMap.keys rs' = JsMap.keys rs
  /\ JsMap.keys (participants (roomId data) rs') = JsMap.keys (participants (roomId data) rs)
  /\ registered (roomId data) (userId data) rs' = Some {| socket := server; socketId := sid |}
  /\ (forall r u, (r, u) <> (roomId data, userId data) ->
        registered r u rs' = registered r u rs).
Proof.
  intros Hreg rs'. unfold rs'.
  split; [|split; [|split]].
  - rewrite fst_handleJoinRoom. unfold registered in Hreg.
    destruct (JsMap.get (roomId data) rs) as [clients|] eqn:E; [|discriminate].
    now apply keys_set_present with (v' := clients).
  - rewrite participants_join_eq. apply keys_set_present with (v' := d).
    now rewrite <- registered_participants.
  - apply registered_join_eq.
  - intros r u H. now apply registered_join_ne.
Qed.

Lemma rejoin_keeps_the_place_witness :
  JsMap.keys (participants lobby
                (fst (handleJoinRoom isolated 2 "socket_z" (msg "join-room" lobby alice)
                        (rooms (run WorkerJs two_peers initial)))))
  = [alice; bob].
Proof.
  apply (rejoin_keeps_the_place isolated 2 "socket_z" (msg "join-room" lobby alice)
           (rooms (run WorkerJs two_peers initial))
           {| socket := 0; socketId := "socket_x" |}).
  reflexivity.
Defined.

(** ** What a message can touch *)

Lemma message_frames (v : variant) (t : transport) (server : nat) (sid : string)
    (m : message) (rs : registry) (ws : nat) (f : jsval) :
  In (Send ws f) (snd (messageListener v t server sid (Json m) rs)) ->
  ready t ws = true
  /\ ((exists u c,
         In (u, c) (participants (roomId m)
                      (fst (messageListener v t server sid (Json m) rs)))
         /\ socket c = ws /\ socketId c <> sid)
      \/ (ws = server /\ f = heartbeat_ack /\ v = OnDemand
          /\ is_string (type m) "heartbeat" = true)).
Proof.
  unfold messageListener.
  destruct (is_string (type m) "join-room").
  { intro H. apply In_Send_caught, join_frames in H as [_ [H1 H2]]. rewrite fst_caught. auto. }
  destruct (is_string (type m) "leave-room").
  { intro H. apply In_Send_caught, leave_frames in H as [_ [H1 H2]]. rewrite fst_caught. auto. }
  unfold handleOffer, handleAnswer, handleIceCandidate.
  assert (Hrelay : forall out,
            In (Send ws f) (snd (caught (rs, broadcastToRoom t server rs (roomId m) out sid))) ->
            ready t ws = true
            /\ ((exists u c, In (u, c) (participants (roomId m) rs)
                             /\ socket c = ws /\ socketId c <> sid)
                \/ (ws = server /\ f = heartbeat_ack /\ v = OnDemand
                    /\ is_string (type m) "heartbeat" = true))).
  { intros out H. apply In_Send_caught in H. unfold effects in H. cbn [snd] in H.
    apply broadcast_frames in H as [_ [H1 H2]]. auto. }
  destruct (is_string (type m) "offer"); [apply Hrelay|].
  destruct (is_string (type m) "answer"); [apply Hrelay|].
  destruct (is_string (type m) "ice-candidate"); [apply Hrelay|].
  assert (Hlog : In (Send ws f) [ConsoleLog (UnknownType (type m))] -> False)
    by (intros [H|[]]; discriminate).
  destruct v; simpl; [intro H; now apply Hlog in H|].
  destruct (is_string (type m) "heartbeat"); simpl; [|intro H; now apply Hlog in H].
  rewrite sendToClient_own. unfold caught, threw, effects. cbn [fst snd].
  destruct (ready t server) eqn:E; [|intros []].
  intros [H|[]]. inversion H; subst. auto 10.
Qed.

Lemma message_keeps_other_rooms (v : variant) (t : transport) (server : nat)
    (sid : string) (data : inbound) (rs : registry) (r' : ident) :
  (forall m, data = Json m -> roomId m <> r') ->
  JsMap.get r' (fst (messageListener v t server sid data rs)) = JsMap.get r' rs.
Proof.
  intro H. rewrite fst_messageListener. destruct data as [| |m]; [reflexivity|reflexivity|].
  specialize (H m eq_refl).
  destruct (is_string (type m) "join-room"); [now apply get_join_ne|].
  destruct (is_string (type m) "leave-room"); [now apply get_leave_ne|reflexivity].
Qed.

(** X3.  Of all the messages a connection can send, only [join-room] and
    [leave-room] change the registry: any other type, known or not, text
    that does not parse and [null] leave it as it is, in both variants. *)
Theorem only_join_and_leave_change_rooms (v : variant) (t : transport)
    (server : nat) (sid : string) (data : inbound) (rs : registry) :
  (forall m, data = Json m ->
     is_string (type m) "join-room" = false /\ is_string (type m) "leave-room" = false) ->
  fst (messageListener v t server sid data rs) = rs.
Proof.
  intro H. rewrite fst_messageListener. destruct data as [| |m]; [reflexivity|reflexivity|].
  destruct (H m eq_refl) as [Hj Hl]. now rewrite Hj, Hl.
Qed.

Lemma only_join_and_leave_change_rooms_witness :
  fst (messageListener OnDemand isolated 0 "socket_x" (Json offer_of_alice)
         (rooms (run OnDemand two_peers initial)))
  = rooms (run OnDemand two_peers initial).
Proof.
  apply (only_join_and_leave_change_rooms OnDemand isolated 0 "socket_x"
           (Json offer_of_alice)).
  intros m H. inversion H. split; reflexivity.
Defined.

(** X4.  A message reaches no room but the one it names.  Whatever its
    type, every other room of the registry is after it what it was before,
    and each frame it causes goes to an OPEN socket of a client that is, once
    the message is handled, in the room it names and does not carry the
    identifier of the sender; the one exception is the [heartbeat-ack] of
    the on-demand variant, which goes to the sender. *)
Theorem message_stays_in_its_room (v : variant) (t : transport) (server : nat)
    (sid : string) (m : message) (rs : registry) :
  let res := messageListener v t server sid (Json m) rs in
  (forall r', roomId m <> r' -> JsMap.get r' (fst res) = JsMap.get r' rs)
  /\ (forall ws f, In (Send ws f) (snd res) ->
        ready t ws = true
        /\ ((exists u c, In (u, c) (participants (roomId m) (fst res))
                         /\ socket c = ws /\ socketId c <> sid)
            \/ (ws = server /\ f = heartbeat_ack /\ v = OnDemand
                /\ is_string (type m) "heartbeat" = true))).
Proof.
  intro res. split.
  - intros r' H. apply message_keeps_other_rooms. intros m' E.
    injection E as <-. exact H.
  - intros ws f H. now apply message_frames.
Qed.

Lemma message_stays_in_its_room_witness :
  JsMap.get (Id (Str "B"))
    (fst (messageListener WorkerJs isolated 1 "socket_y"
            (Json (msg "leave-room" (Id (Str "A")) (Id (Str "u1"))))
            (rooms (run WorkerJs two_rooms initial))))
  = JsMap.get (Id (Str "B")) (rooms (run WorkerJs two_rooms initial)).
Proof.
  apply (proj1 (message_stays_in_its_room WorkerJs isolated 1 "socket_y"
                  (msg "leave-room" (Id (Str "A")) (Id (Str "u1")))
                  (rooms (run WorkerJs two_rooms initial)))).
  discriminate.
Defined.

(** ** The table of connections *)

Lemma sockets_after_step (v : variant) (t : transport) (e : event) (w : world) :
  sockets (fst (step v t e w))
  = sockets w ++ match e with Upgrade rnd36 => [newSocketId rnd36] | _ => [] end.
Proof.
  destruct e as [rnd|server data|server]; simpl.
  - unfold handleWebSocket. now destruct v.
  - unfold onMessage. rewrite app_nil_r. now destruct (nth_error (sockets w) server).
  - unfold onClose. rewrite app_nil_r.
    destruct (nth_error (sockets w) server); [now destruct v|reflexivity].
Qed.

Lemma sockets_after_run (v : variant) (es : list (transport * event)) (w : world) :
  sockets (run v es w) = sockets w ++ map newSocketId (draws es).
Proof.
  revert w. induction es as [|[t e] es IH]; intro w; simpl.
  - now rewrite app_nil_r.
  - rewrite IH, sockets_after_step, <- app_assoc. f_equal.
    unfold draws. simpl. now rewrite map_app; destruct e.
Qed.

Lemma length_sockets_run (v : variant) (es : list (transport * event)) (w : world) :
  List.length (sockets (run v es w)) = List.length (sockets w) + upgrades es.
Proof.
  rewrite sockets_after_run, length_app, length_map. f_equal. unfold draws, upgrades.
  induction es as [|[t e] es IH]; simpl; [reflexivity|].
  rewrite length_app, IH. now destruct e.
Qed.

(** X5.  The table of connections only grows, by the identifier of one
    draw per upgrade and in the order of the upgrades, whatever else
    happens: from the initial state it is the list of the identifiers of
    the draws; every upgrade is accepted; and a connection keeps for good
    the place and the identifier it was given, through messages and closes
    too. *)
Theorem connections_are_the_upgrades (v : variant) (es : list (transport * event))
    (w : world) :
  sockets (run v es initial) = map newSocketId (draws es)
  /\ List.length (sockets (run v es initial)) = upgrades es
  /\ (forall n sid, nth_error (sockets w) n = Some sid ->
        nth_error (sockets (run v es w)) n = Some sid).
Proof.
  split; [apply sockets_after_run|]. split.
  - apply (length_sockets_run v es initial).
  - intros n sid H. rewrite sockets_after_run.
    rewrite nth_error_app1; [assumption|]. apply nth_error_Some. congruence.
Qed.

Lemma connections_are_the_upgrades_witness :
  nth_error (sockets (run OnDemand [(isolated, OnClose 0); (isolated, Upgrade "0.z")]
                        (run OnDemand two_peers initial))) 0
  = Some "socket_x".
Proof.
  apply (proj2 (proj2 (connections_are_the_upgrades OnDemand
                         [(isolated, OnClose 0); (isolated, Upgrade "0.z")]
                         (run OnDemand two_peers initial)))).
  reflexivity.
Defined.

(** X6.  In any state the worker reaches, a client of the registry is an
    accepted connection under the identifier it was given: its socket is in
    the table of connections, with the [socketId] the client carries. *)
Theorem registry_holds_accepted_connections (v : variant)
    (es : list (transport * event)) (r u : ident) (c : client) :
  registered r u (rooms (run v es initial)) = Some c ->
  nth_error (sockets (run v es initial)) (socket c) = Some (socketId c)
  /\ socket c < upgrades es.
Proof.
  intro H. destruct (invariant_run v es initial invariant_initial) as [_ Hco].
  apply Hco in H. split; [assumption|].
  rewrite <- (length_sockets_run v es initial : _ = upgrades es).
  apply nth_error_Some. congruence.
Qed.

Lemma registry_holds_accepted_connections_witness :
  nth_error (sockets (run WorkerJs two_peers initial)) 1 = Some "socket_y" /\ 1 < 2.
Proof.
  apply (registry_holds_accepted_connections WorkerJs two_peers lobby bob
           {| socket := 1; socketId := "socket_y" |}).
  reflexivity.
Defined.

(** ** What a join sends *)

(** X7.  In any state the worker reaches, a [join-room] on an accepted
    connection registers the pair of the message to that connection,
    whatever comes next.  With identifiers that have a string form it logs
    the join and broadcasts [peer-joined], with the room and the user of
    the message, over the clients the room then has whose identifier is not
    the one of the joining connection: frames to those that come before the
    first whose socket the runtime refuses and whose own socket is OPEN,
    and then, if the runtime refuses one, the error the listener logs.
    With an identifier that has no string form the error in the log is
    its only effect.  Whatever the identifiers, the joining connection is
    not told of its own join and nothing but [peer-joined] is sent. *)
Theorem join_notifies_until_throw (v : variant) (es : list (transport * event))
    (t : transport) (X : nat) (sid : string) (m : message) :
  let w := run v es initial in
  nth_error (sockets w) X = Some sid ->
  is_string (type m) "join-room" = true ->
  let res := step v t (OnMessage X (Json m)) w in
  let note := peer_joined (roomId m) (userId m) in
  let clients := participants (roomId m) (rooms (fst res)) in
  registered (roomId m) (userId m) (rooms (fst res)) = Some {| socket := X; socketId := sid |}
  /\ (template [userId m; roomId m] = true ->
        snd res
        = [ConsoleLog (UserJoined (userId m) (roomId m));
           ConsoleLog (RoomHas (roomId m) (JsMap.size clients))]
            ++ map frame (deliveries (ready t) note (reached t X (others sid clients)))
            ++ (if blocked t X (others sid clients) then [ConsoleError] else []))
  /\ (template [userId m; roomId m] = false -> snd res = [ConsoleError])
  /\ (forall ws f, In (Send ws f) (snd res) -> ws <> X /\ f = note /\ ready t ws = true).
Proof.
  intros w Hsock Htype res note clients.
  assert (Hinv : invariant (fst res))
    by (apply invariant_step, invariant_run, invariant_initial).
  assert (Hsock' : nth_error (sockets (fst res)) X = Some sid)
    by now apply sockets_step.
  destruct (onMessage_accepted v t X sid (Json m) w Hsock) as [Hrooms Hout].
  fold res in Hrooms, Hout. rewrite dispatch_join in Hrooms, Hout by assumption.
  rewrite fst_caught in Hrooms.
  assert (Heffects : snd res
                     = if template [userId m; roomId m]
                       then [ConsoleLog (UserJoined (userId m) (roomId m));
                             ConsoleLog (RoomHas (roomId m) (JsMap.size clients))]
                              ++ map frame (deliveries (ready t) note
                                              (reached t X (others sid clients)))
                              ++ (if blocked t X (others sid clients)
                                  then [ConsoleError] else [])
                       else [ConsoleError]).
  { rewrite Hout. unfold caught, threw, effects. rewrite snd_handleJoinRoom.
    unfold clients. rewrite Hrooms. cbn [snd].
    destruct (template _); cbn [fst snd]; [|reflexivity].
    rewrite broadcastToRoom_frames. cbn [fst snd].
    destruct (blocked _ _ _).
    - now rewrite <- app_assoc.
    - now rewrite app_nil_r. }
  split; [|split; [|split]].
  - rewrite Hrooms. apply registered_join_eq.
  - intro H. now rewrite Heffects, H.
  - intro H. now rewrite Heffects, H.
  - intros ws f H. rewrite Hout in H. apply In_Send_caught, join_frames in H
      as [Hf [Hready [u [c [Hin [<- Hsid]]]]]].
    rewrite <- Hrooms in Hin.
    repeat split; auto.
    now apply (participant_of_other_id (fst res) X sid (roomId m) u c).
Qed.

Lemma join_notifies_until_throw_witness :
  snd (step WorkerJs isolated (OnMessage 1 (Json (msg "join-room" lobby bob)))
         (run WorkerJs (firstn 3 two_peers) initial))
  = [ConsoleLog (UserJoined bob lobby); ConsoleLog (RoomHas lobby 2); ConsoleError].
Proof.
  apply (proj1 (proj2 (join_notifies_until_throw WorkerJs (firstn 3 two_peers) isolated 1
                         "socket_y" (msg "join-room" lobby bob) eq_refl eq_refl))).
  reflexivity.
Defined.

(** ** What is never sent *)

Lemma accepted_participant (socks : list string) (rs : registry) (X : nat) (sid : string)
    (r u : ident) (c : client) :
  well_formed rs ->
  (forall r u c, registered r u rs = Some c ->
     nth_error socks (socket c) = Some (socketId c)) ->
  nth_error socks X = Some sid ->
  In (u, c) (participants r rs) -> socketId c <> sid ->
  socket c <> X /\ socket c < List.length socks.
Proof.
  intros Hwf Hco Hsock Hin Hsid.
  assert (Hreg : registered r u rs = Some c).
  { rewrite registered_participants. apply In_get; [|assumption].
    now apply well_formed_participants. }
  apply Hco in Hreg. split.
  - intro E. rewrite E in Hreg. congruence.
  - apply nth_error_Some. congruence.
Qed.

(** The frames of a close are [peer-left] to OPEN sockets of other
    accepted connections. *)
Lemma close_frames (w : world) (t : transport) (X : nat) (sid : string)
    (ws : nat) (f : jsval) :
  invariant w -> nth_error (sockets w) X = Some sid ->
  In (Send ws f) (effects (closeListener t X sid (rooms w))) ->
  (exists r u, f = peer_left r u)
  /\ ws <> X /\ ws < List.length (sockets w) /\ ready t ws = true.
Proof.
  intros [Hwf Hco] Hsock H.
  destruct (closeListener_keeps
              (fun rs => well_formed rs
                         /\ forall r u c, registered r u rs = Some c ->
                              nth_error (sockets w) (socket c) = Some (socketId c))
              (fun e => forall ws f, e = Send ws f ->
                          (exists r u, f = peer_left r u)
                          /\ ws <> X /\ ws < List.length (sockets w) /\ ready t ws = true)
              t X sid) with (rs := rooms w) as [_ HQ].
  - intros data rs [H1 H2]. split; [now apply well_formed_leave|].
    intros r u c Hreg.
    destruct (pair_cases (r, u) (roomId data, userId data)) as [E|E].
    + inversion E; subst. rewrite registered_leave_eq in Hreg. discriminate.
    + rewrite registered_leave_ne in Hreg by assumption. eauto.
  - intros data rs e [H1 H2] He ws' f' ->.
    apply leave_frames in He as [-> [Hready [u [c [Hin [<- Hsid]]]]]].
    split; [eauto|].
    assert (Hacc : socket c <> X /\ socket c < List.length (sockets w)).
    { apply (accepted_participant (sockets w)
               (fst (handleLeaveRoom t X sid data rs)) X sid (roomId data) u c); auto.
      - now apply well_formed_leave.
      - intros r0 u0 c0 Hreg.
        destruct (pair_cases (r0, u0) (roomId data, userId data)) as [E|E].
        + inversion E; subst. rewrite registered_leave_eq in Hreg. discriminate.
        + rewrite registered_leave_ne in Hreg by assumption. eauto. }
    tauto.
  - now split.
  - now apply (HQ (Send ws f) H).
Qed.

Lemma In_Send_escaped (o : outcome) (ws : nat) (f : jsval) :
  In (Send ws f) (escaped o) <-> In (Send ws f) (effects o).
Proof. now rewrite !In_sent, sent_escaped. Qed.

Lemma In_Send_onClose (v : variant) (t : transport) (X : nat) (sid : string) (w : world)
    (ws : nat) (f : jsval) :
  nth_error (sockets w) X = Some sid ->
  In (Send ws f) (snd (step v t (OnClose X) w)) ->
  In (Send ws f) (effects (closeListener t X sid (rooms w))).
Proof.
  intros Hsock H. apply In_sent in H.
  destruct (onClose_rooms v t X sid w Hsock) as [_ Hsent].
  rewrite Hsent in H. now apply In_sent.
Qed.

Lemma step_frames_accepted (v : variant) (t : transport) (e : event) (w : world)
    (ws : nat) (f : jsval) :
  invariant w ->
  In (Send ws f) (snd (step v t e w)) ->
  ws < List.length (sockets (fst (step v t e w))).
Proof.
  intros Hinv H.
  assert (Hinv' : invariant (fst (step v t e w))) by now apply invariant_step.
  destruct e as [rnd|server data|server].
  - rewrite sockets_after_step, length_app. simpl List.length.
    assert (Hnew : In (Send ws f)
                     (fst (sendToClient t (List.length (sockets w))
                             (List.length (sockets w)) connected))
                   -> ws < List.length (sockets w) + 1).
    { rewrite sendToClient_own. cbn [fst]. destruct (ready t _); [|intros []].
      intros [E|[]]. inversion E. rewrite Nat.add_1_r. apply Nat.lt_succ_diag_r. }
    simpl in H. unfold handleWebSocket in H. destruct v; simpl in H; auto.
    destruct H as [H|H]; [discriminate|auto].
  - destruct (nth_error (sockets w) server) as [sid|] eqn:Hsock.
    + destruct (onMessage_accepted v t server sid data w Hsock) as [Hrooms Hout].
      rewrite Hout in H. destruct data as [| |m];
        [destruct H as [H|[]]; discriminate|destruct H as [H|[]]; discriminate|].
      apply message_frames in H as [_ [[u [c [Hin [<- Hsid]]]]|[-> _]]].
      * rewrite <- Hrooms in Hin.
        apply (participant_of_other_id _ server sid (roomId m) u c); auto.
        now apply sockets_step.
      * apply nth_error_Some. rewrite (sockets_step v t _ w server sid Hsock).
        discriminate.
    + simpl in H. unfold onMessage in H. rewrite Hsock in H. destruct H.
  - destruct (nth_error (sockets w) server) as [sid|] eqn:Hsock.
    + apply (In_Send_onClose v t server sid w ws f Hsock) in H.
      rewrite sockets_after_step, app_nil_r.
      now apply (close_frames w t server sid ws f Hinv Hsock) in H.
    + simpl in H. unfold onClose in H. rewrite Hsock in H. destruct H.
Qed.

(** X8.  The worker never sends to a socket it has not accepted: every
    frame of every run from the initial state goes to a socket of the table
    of connections. *)
Theorem never_sends_to_a_stranger (v : variant) (es : list (transport * event))
    (ws : nat) (f : jsval) :
  In (Send ws f) (trace v es initial) ->
  ws < List.length (sockets (run v es initial)).
Proof.
  assert (G : forall w, invariant w -> In (Send ws f) (trace v es w) ->
                        ws < List.length (sockets (run v es w))).
  { induction es as [|[t e] es IH]; intros w Hinv H; [destruct H|].
    simpl in H. apply in_app_or in H as [H|H].
    - simpl. rewrite length_sockets_run.
      apply Nat.lt_le_trans with (m := List.length (sockets (fst (step v t e w)))).
      + now apply (step_frames_accepted v t e w ws f).
      + apply Nat.le_add_r.
    - simpl. apply IH; [now apply invariant_step|assumption]. }
  apply G, invariant_initial.
Qed.

Lemma never_sends_to_a_stranger_witness :
  1 < List.length (sockets (run WorkerJs two_peers initial)).
Proof.
  apply (never_sends_to_a_stranger WorkerJs two_peers 1 connected).
  simpl. auto 10.
Defined.

(** ** The two variants *)

Lemma messageListener_rooms_variant (t : transport) (server : nat) (sid : string)
    (data : inbound) (rs : registry) :
  fst (messageListener WorkerJs t server sid data rs)
  = fst (messageListener OnDemand t server sid data rs).
Proof. now rewrite !fst_messageListener. Qed.

(** X9.  The two variants keep the same registry and the same table of
    connections: on the same events, from states that agree on both, they
    end in states that agree on both.  What the on-demand variant adds, the
    counter, the heartbeat and its log lines, never reaches the rooms. *)
Theorem variants_keep_the_same_rooms (es : list (transport * event)) (w w' : world) :
  rooms w = rooms w' -> sockets w = sockets w' ->
  rooms (run WorkerJs es w) = rooms (run OnDemand es w')
  /\ sockets (run WorkerJs es w) = sockets (run OnDemand es w').
Proof.
  revert w w'. induction es as [|[t e] es IH]; intros w w' Hr Hs; [now split|].
  simpl. apply IH.
  - destruct e as [rnd|server data|server]; simpl.
    + exact Hr.
    + unfold onMessage. rewrite Hs, Hr.
      destruct (nth_error (sockets w') server); [|exact Hr].
      apply messageListener_rooms_variant.
    + unfold onClose. rewrite Hs, Hr.
      destruct (nth_error (sockets w') server); [reflexivity|exact Hr].
  - rewrite !sockets_after_step. now rewrite Hs.
Qed.

Lemma variants_keep_the_same_rooms_witness :
  rooms (run WorkerJs two_rooms initial) = rooms (run OnDemand two_rooms initial)
  /\ sockets (run WorkerJs two_rooms initial) = sockets (run OnDemand two_rooms initial).
Proof.
  apply (variants_keep_the_same_rooms two_rooms initial initial); reflexivity.
Defined.

(** ** Closing again *)





(** ** Fetch events *)

Lemma asks_websocket_iff (req : request) :
  asks_websocket req = true <-> upgrade req = Some "websocket".
Proof.
  unfold asks_websocket. destruct (upgrade req) as [h|]; [|split; discriminate].
  rewrite String.eqb_eq. split; congruence.
Qed.

(** X11.  The fetch listener hands a request to [handleWebSocket] exactly
    when its [Upgrade] header reads [websocket], letter for letter.  Such a
    request is always accepted: the answer is 101 with the client end of a
    new pair, and the worker is as after the accept.  Any other request,
    one whose header reads [WebSocket] too, gets the answer of
    [handleHttpRequest] and leaves the worker as it is, with no effect.  So
    the answer 426 of [handleWebSocket] is never given. *)
Theorem fetch_dispatch (v : variant) (t : transport) (req : request)
    (rnd36 : string) (w : world) :
  let res := fetchListener v t req rnd36 w in
  status (snd res) <> 426
  /\ (upgrade req = Some "websocket" ->
        fst res = step v t (Upgrade rnd36) w
        /\ status (snd res) = 101
        /\ webSocket (snd res) = Some (List.length (sockets w))
        /\ nth_error (sockets (fst (fst res))) (List.length (sockets w))
           = Some (newSocketId rnd36))
  /\ (upgrade req <> Some "websocket" ->
        fst res = (w, []) /\ snd res = handleHttpRequest req
        /\ webSocket (snd res) = None).
Proof.
  intro res. unfold res, fetchListener, handleWebSocketEvent.
  destruct (asks_websocket req) eqn:E; simpl.
  - apply asks_websocket_iff in E. split; [discriminate|]. split; [|congruence].
    intros _. split; [now destruct (handleWebSocket v t rnd36 w)|].
    split; [reflexivity|]. split; [reflexivity|].
    pose proof (sockets_after_step v t (Upgrade rnd36) w) as Hs.
    simpl in Hs. rewrite Hs. now rewrite nth_error_app2, Nat.sub_diag.
  - assert (Hno : upgrade req <> Some "websocket").
    { intro H. apply asks_websocket_iff in H. congruence. }
    split; [|split; [contradiction|]].
    + unfold handleHttpRequest, handleCORS. destruct (String.eqb _ _); discriminate.
    + intros _. repeat split.
      unfold handleHttpRequest, handleCORS. now destruct (String.eqb _ _).
Qed.

Lemma fetch_dispatch_witness :
  fst (fetchListener WorkerJs isolated {| upgrade := Some "WebSocket"; method := "GET" |}
         "0.x" initial)
  = (initial, [])
  /\ snd (fetchListener WorkerJs isolated {| upgrade := Some "WebSocket"; method := "GET" |}
            "0.x" initial)
     = handleHttpRequest {| upgrade := Some "WebSocket"; method := "GET" |}
  /\ webSocket (snd (fetchListener WorkerJs isolated
                       {| upgrade := Some "WebSocket"; method := "GET" |} "0.x" initial))
     = None.
Proof.
  apply (fetch_dispatch WorkerJs isolated {| upgrade := Some "WebSocket"; method := "GET" |}
           "0.x" initial).
  discriminate.
Defined.

(** X12.  Every answer to a request that does not ask for a websocket,
    preflight or not, allows any origin, the methods GET, POST and OPTIONS
    and the header Content-Type.  The preflight, and only it, is answered
    204 with no body and a max age of 86400; any other method, known or
    not, is answered 200 with the status page as plain text. *)
Theorem http_answers_allow_any_origin (v : variant) (t : transport) (req : request)
    (rnd36 : string) (w : world) :
  asks_websocket req = false ->
  let resp := snd (fetchListener v t req rnd36 w) in
  In ("Access-Control-Allow-Origin", "*") (headers resp)
  /\ In ("Access-Control-Allow-Methods", "GET, POST, OPTIONS") (headers resp)
  /\ In ("Access-Control-Allow-Headers", "Content-Type") (headers resp)
  /\ (method req = "OPTIONS" ->
        status resp = 204 /\ body resp = None
        /\ In ("Access-Control-Max-Age", "86400") (headers resp))
  /\ (method req <> "OPTIONS" ->
        status resp = 200
        /\ body resp = Some "ZapCall Signaling Server - Cloudflare Worker"
        /\ In ("Content-Type", "text/plain") (headers resp)
        /\ ~ In "Access-Control-Max-Age" (map fst (headers resp))).
Proof.
  intros H resp. unfold resp, fetchListener. rewrite H. simpl snd.
  unfold handleHttpRequest, handleCORS.
  destruct (String.eqb_spec (method req) "OPTIONS") as [E|E]; simpl.
  - split; [|split; [|split; [|split]]]; auto 6.
    + intros _. repeat split. auto 6.
    + intro H'. contradiction.
  - split; [|split; [|split; [|split]]]; auto 6.
    + intro H'. contradiction.
    + intros _. split; [reflexivity|]. split; [reflexivity|]. split; [auto|].
      intros [H'|[H'|[H'|[H'|[]]]]]; discriminate.
Qed.

Lemma http_answers_allow_any_origin_witness :
  In ("Access-Control-Allow-Origin", "*")
     (headers (snd (fetchListener WorkerJs isolated
                      {| upgrade := None; method := "DELETE" |} "0.x" initial))).
Proof.
  apply (http_answers_allow_any_origin WorkerJs isolated
           {| upgrade := None; method := "DELETE" |} "0.x" initial).
  reflexivity.
Defined.

(** ** The idle timer *)
Lemma clearTimeout_In (id id' : nat) (armed : list nat) :
  In id' (clearTimeout id armed) <-> In id' armed /\ id' <> id.
Proof.
  unfold clearTimeout. rewrite filter_In. rewrite negb_true_iff, Nat.eqb_neq. tauto.
Qed.

Lemma clearTimeout_only (id : nat) (armed : list nat) :
  (forall id', In id' armed -> id' = id) -> clearTimeout id armed = [].
Proof.
  intro H. destruct (clearTimeout id armed) as [|x l] eqn:E; [reflexivity|].
  assert (Hx : In x (clearTimeout id armed)) by (rewrite E; now left).
  apply clearTimeout_In in Hx as [Hx Hne]. now apply H in Hx.
Qed.

Lemma one_timer_short (t : timers) : one_timer t -> List.length (pending t) <= 1.
Proof.
  intros [Hnd H]. destruct (pending t) as [|a [|b l]]; simpl; auto.
  exfalso. inversion Hnd as [|? ? Hfresh _]; subst. apply Hfresh. left.
  assert (Ha : idleTimer t = Some a) by (apply H; now left).
  assert (Hb : idleTimer t = Some b) by (apply H; right; now left).
  congruence.
Qed.

Lemma checkIdleTimer_pending (active : Z) (t : timers) :
  one_timer t ->
  checkIdleTimer active t
  = if Z.eqb active 0
    then {| idleTimer := Some (nextTimer t); pending := [nextTimer t];
            nextTimer := S (nextTimer t) |}
    else {| idleTimer := None; pending := []; nextTimer := nextTimer t |}.
Proof.
  intros [Hnd H]. unfold checkIdleTimer.
  destruct (Z.eqb active 0); destruct (idleTimer t) as [id|] eqn:E.
  - rewrite clearTimeout_only; [reflexivity|]. intros id' Hin. apply H in Hin. congruence.
  - destruct (pending t) as [|x l]; [reflexivity|].
    assert (Hx : None = Some x) by (apply H; now left). discriminate.
  - rewrite clearTimeout_only; [reflexivity|]. intros id' Hin. apply H in Hin. congruence.
  - destruct t as [i p n]. simpl in *. subst i.
    destruct p as [|x l]; [reflexivity|].
    assert (Hx : None = Some x) by (apply H; now left). discriminate.
Qed.

Lemma one_timer_occur (v : variant) (t : transport) (o : occurrence)
    (s : world * timers) :
  one_timer (snd s) -> one_timer (snd (occur v t o s)).
Proof.
  intro H. destruct o as [e|id]; simpl.
  - unfold timers_step. destruct v; [exact H|].
    destruct e as [rnd|server data|server]; try exact H.
    destruct (nth_error (sockets (fst s)) server); [|exact H].
    rewrite checkIdleTimer_pending by assumption.
    destruct (Z.eqb _ 0); split; simpl.
    + constructor; [intros []|constructor].
    + intros id [<-|[]]. reflexivity.
    + constructor.
    + intros id [].
  - destruct H as [Hnd H]. split; simpl.
    + unfold clearTimeout. now apply NoDup_filter.
    + intros id' Hin. apply clearTimeout_In in Hin as [Hin _]. now apply H.
Qed.

Lemma one_timer_occurAll (v : variant) (os : list (transport * occurrence))
    (s : world * timers) :
  one_timer (snd s) -> one_timer (snd (occurAll v os s)).
Proof.
  revert s. induction os as [|[t o] os IH]; intros s H; [exact H|].
  simpl. apply IH. now apply one_timer_occur.
Qed.

Lemma one_timer_initial : one_timer no_timers.
Proof. split; [constructor|intros id []]. Qed.

(** X13.  Whatever happens to the worker, transport events and timers
    firing in any order, at most one idle timer is armed at a time, and it
    is the one [idleTimer] refers to: a close that arms a timer has first
    cleared the one before.  [worker.js], which has no such code, never
    arms one. *)
Theorem at_most_one_idle_timer (v : variant) (os : list (transport * occurrence)) :
  let t := snd (occurAll v os (initial, no_timers)) in
  List.length (pending t) <= 1
  /\ (forall id, In id (pending t) -> idleTimer t = Some id)
  /\ snd (occurAll WorkerJs os (initial, no_timers))
     = {| idleTimer := None; pending := []; nextTimer := 1 |}.
Proof.
  intro t.
  assert (H : one_timer t) by (apply one_timer_occurAll, one_timer_initial).
  split; [now apply one_timer_short|]. split; [apply H|].
  clear t H. generalize initial.
  induction os as [|[t o] os IH]; intro w; [reflexivity|].
  simpl. destruct o as [e|id]; simpl.
  - apply IH.
  - apply (IH w).
Qed.

Lemma at_most_one_idle_timer_witness :
  idleTimer (snd (occurAll OnDemand reconnect (initial, no_timers))) = Some 1.
Proof.
  apply (proj1 (proj2 (at_most_one_idle_timer OnDemand reconnect))).
  simpl. now left.
Defined.

(** X14.  In any state the on-demand worker reaches, after the close of an
    accepted connection an idle timer is armed if and only if the counter
    of active connections has come down to zero; it is then a fresh timer,
    the only one armed, and when the counter is not zero [idleTimer] is
    null. *)
Theorem timer_armed_iff_no_connection (os : list (transport * occurrence))
    (t : transport) (server : nat) (sid : string) :
  let s := occurAll OnDemand os (initial, no_timers) in
  nth_error (sockets (fst s)) server = Some sid ->
  let s' := occur OnDemand t (Transport (OnClose server)) s in
  activeConnections (fst s') = (activeConnections (fst s) - 1)%Z
  /\ (pending (snd s') <> [] <-> activeConnections (fst s') = 0%Z)
  /\ (activeConnections (fst s') = 0%Z ->
        idleTimer (snd s') = Some (nextTimer (snd s))
        /\ pending (snd s') = [nextTimer (snd s)])
  /\ (activeConnections (fst s') <> 0%Z -> idleTimer (snd s') = None).
Proof.
  intros s Hsock s'.
  assert (H : one_timer (snd s)) by (apply one_timer_occurAll, one_timer_initial).
  assert (Hact : activeConnections (fst s') = (activeConnections (fst s) - 1)%Z).
  { unfold s'. simpl. unfold onClose. now rewrite Hsock. }
  assert (Ht : snd s' = checkIdleTimer (activeConnections (fst s) - 1) (snd s)).
  { unfold s'. simpl. now rewrite Hsock. }
  rewrite Ht, checkIdleTimer_pending, Hact by assumption.
  split; [reflexivity|].
  destruct (Z.eqb_spec (activeConnections (fst s) - 1) 0) as [E|E]; simpl.
  - split; [split; [auto|discriminate]|]. split; [auto|]. intro H'. contradiction.
  - split; [split; [intro H'; now contradiction H'|contradiction]|].
    split; [contradiction|auto].
Qed.

Lemma timer_armed_iff_no_connection_witness :
  pending (snd (occur OnDemand isolated (Transport (OnClose 0))
                  (occurAll OnDemand [(isolated, Transport (Upgrade "0.x"))]
                     (initial, no_timers))))
  = [1].
Proof.
  apply (timer_armed_iff_no_connection [(isolated, Transport (Upgrade "0.x"))]
           isolated 0 "socket_x"); reflexivity.
Defined.

(** X15.  Only a close or the timer itself touches the idle timer: through
    any sequence of upgrades and messages the timers stay as they are.  A
    connection accepted while a timer is armed does not clear it, so the
    timer fires and logs the shutdown with a connection active. *)
Theorem new_connection_keeps_the_timer (v : variant)
    (os : list (transport * occurrence)) (s : world * timers) :
  forallb (fun ro => keeps_timers (snd ro)) os = true ->
  snd (occurAll v os s) = snd s
  /\ (forall id, shutdown_logged id (snd (occurAll v os s)) = shutdown_logged id (snd s)).
Proof.
  revert s. induction os as [|[t o] os IH]; intros s H; [now split|].
  simpl in H. apply andb_true_iff in H as [Ho H].
  assert (Hstep : snd (occur v t o s) = snd s).
  { destruct o as [[rnd|server data|server]|id]; try discriminate; simpl;
      unfold timers_step; now destruct v. }
  simpl. destruct (IH (occur v t o s) H) as [IH1 IH2].
  rewrite IH1, Hstep. now split.
Qed.

Lemma new_connection_keeps_the_timer_witness :
  snd (occurAll OnDemand [(isolated, Transport (Upgrade "0.y"))]
         (occurAll OnDemand (firstn 2 reconnect) (initial, no_timers)))
  = snd (occurAll OnDemand (firstn 2 reconnect) (initial, no_timers)).
Proof.
  apply (new_connection_keeps_the_timer OnDemand [(isolated, Transport (Upgrade "0.y"))]).
  reflexivity.
Defined.

(** The shutdown is logged while a connection is active. *)
Example shutdown_logged_with_a_connection :
  let s := occurAll OnDemand reconnect (initial, no_timers) in
  activeConnections (fst s) = 1%Z /\ pending (snd s) = [1]
  /\ shutdown_logged 1 (snd s) = true.
Proof. repeat split. Qed.

(** ** The counter of connections *)

Lemma closes_cons (re : transport * event) (es : list (transport * event)) :
  closes (re :: es)
  = (match snd re with OnClose _ => 1 | _ => 0 end) + closes es.
Proof. unfold closes. simpl. now destruct (snd re). Qed.

Lemma upgrades_cons (re : transport * event) (es : list (transport * event)) :
  upgrades (re :: es)
  = (match snd re with Upgrade _ => 1 | _ => 0 end) + upgrades es.
Proof. unfold upgrades. simpl. now destruct (snd re). Qed.

Lemma counter_of_orderly_run (es : list (transport * event)) (w : world)
    (closed : list nat) :
  orderly (List.length (sockets w)) closed es = true ->
  activeConnections (run OnDemand es w)
  = (activeConnections w + Z.of_nat (upgrades es) - Z.of_nat (closes es))%Z.
Proof.
  revert w closed. induction es as [|[t e] es IH]; intros w closed H.
  - simpl. unfold upgrades, closes. simpl. lia.
  - rewrite upgrades_cons, closes_cons. simpl snd. simpl run.
    destruct e as [rnd|server data|server]; simpl in H.
    + rewrite (IH _ closed).
      * simpl. lia.
      * rewrite sockets_after_step, length_app. simpl. now rewrite Nat.add_1_r.
    + rewrite (IH _ closed).
      * simpl. unfold onMessage. destruct (nth_error (sockets w) server); simpl; lia.
      * now rewrite sockets_after_step, app_nil_r.
    + apply andb_true_iff in H as [H1 H]. apply andb_true_iff in H1 as [Hlt _].
      apply Nat.ltb_lt in Hlt.
      rewrite (IH _ (server :: closed)).
      * simpl. unfold onClose.
        destruct (nth_error (sockets w) server) eqn:E; simpl; [lia|].
        apply nth_error_None in E. lia.
      * now rewrite sockets_after_step, app_nil_r.
Qed.

Lemma closes_of_orderly_run (es : list (transport * event)) (accepted : nat)
    (closed : list nat) :
  orderly accepted closed es = true ->
  NoDup closed -> (forall x, In x closed -> x < accepted) ->
  List.length closed + closes es <= accepted + upgrades es.
Proof.
  revert accepted closed. induction es as [|[t e] es IH]; intros accepted closed H Hnd Hlt.
  - assert (Hle : List.length closed <= List.length (seq 0 accepted)).
    { apply NoDup_incl_length; [assumption|].
      intros x Hx. apply in_seq. split; [apply Nat.le_0_l|]. simpl. now apply Hlt. }
    rewrite length_seq in Hle. unfold closes, upgrades. simpl. lia.
  - rewrite upgrades_cons, closes_cons. simpl snd.
    destruct e as [rnd|server data|server]; simpl in H.
    + specialize (IH (S accepted) closed H Hnd).
      assert (Hlt' : forall x, In x closed -> x < S accepted)
        by (intros x Hx; apply Hlt in Hx; lia).
      specialize (IH Hlt'). lia.
    + specialize (IH accepted closed H Hnd Hlt). lia.
    + apply andb_true_iff in H as [H1 H]. apply andb_true_iff in H1 as [Hs Hnew].
      apply Nat.ltb_lt in Hs. apply negb_true_iff in Hnew.
      assert (Hfresh : ~ In server closed).
      { intro Hin. assert (Hex : existsb (Nat.eqb server) closed = true).
        { apply existsb_exists. exists server. split; [assumption|apply Nat.eqb_refl]. }
        congruence. }
      specialize (IH accepted (server :: closed) H).
      assert (Hnd' : NoDup (server :: closed)) by now constructor.
      assert (Hlt' : forall x, In x (server :: closed) -> x < accepted)
        by (intros x [<-|Hx]; auto).
      specialize (IH Hnd' Hlt'). simpl in IH. lia.
Qed.

(** X16.  In a run of the on-demand worker in which the transport closes
    only connections it has accepted, and each of them at most once,
    [activeConnections] is the number of connections accepted and not yet
    closed: the upgrades less the closes, never negative. *)
Theorem counter_counts_open_connections (es : list (transport * event)) :
  orderly 0 [] es = true ->
  activeConnections (run OnDemand es initial)
  = (Z.of_nat (upgrades es) - Z.of_nat (closes es))%Z
  /\ closes es <= upgrades es
  /\ (0 <= activeConnections (run OnDemand es initial))%Z.
Proof.
  intro H.
  pose proof (counter_of_orderly_run es initial [] H) as Hc. simpl in Hc.
  assert (Hle : closes es <= upgrades es).
  { pose proof (closes_of_orderly_run es 0 [] H (NoDup_nil _)) as Hl.
    simpl in Hl. apply Hl. intros x []. }
  rewrite Hc. split; [lia|]. split; [assumption|lia].
Qed.

Lemma counter_counts_open_connections_witness :
  activeConnections
    (run OnDemand (two_peers ++ [(isolated, OnClose 1)]) initial)
  = (Z.of_nat (upgrades (two_peers ++ [(isolated, OnClose 1)]))
     - Z.of_nat (closes (two_peers ++ [(isolated, OnClose 1)])))%Z.
Proof.
  apply (counter_counts_open_connections (two_peers ++ [(isolated, OnClose 1)])).
  reflexivity.
Defined.

(** ** What goes out *)

Lemma relayed_total (m : message) (f : jsval) :
  (is_string (type m) "offer" = true
   /\ f = Obj [("type", Prim (Str "offer")); ("sender", sender m); ("offer", offer m)])
  \/ (is_string (type m) "answer" = true
      /\ f = Obj [("type", Prim (Str "answer")); ("sender", sender m);
                  ("answer", answer m)])
  \/ (is_string (type m) "ice-candidate" = true
      /\ f = Obj [("type", Prim (Str "ice-candidate")); ("sender", sender m);
                  ("candidate", candidate m)]) ->
  relayed m = Some f.
Proof.
  unfold relayed. intros [[H ->]|[[H ->]|[H ->]]].
  - now rewrite H.
  - apply is_string_eq in H. now rewrite H.
  - apply is_string_eq in H. now rewrite H.
Qed.

Lemma step_frames_outbound (v : variant) (t : transport) (e : event) (w : world)
    (ws : nat) (f : jsval) :
  invariant w ->
  In (Send ws f) (snd (step v t e w)) ->
  outbound v f
  /\ (f = connected -> exists rnd36, e = Upgrade rnd36 /\ ws = List.length (sockets w)).
Proof.
  intros Hinv H. destruct e as [rnd|server data|server].
  - assert (Hnew : In (Send ws f)
                     (fst (sendToClient t (List.length (sockets w))
                             (List.length (sockets w)) connected))
                   -> f = connected /\ ws = List.length (sockets w)).
    { rewrite sendToClient_own. cbn [fst]. destruct (ready t _); [|intros []].
      intros [E|[]]. inversion E. now split. }
    simpl in H. unfold handleWebSocket in H.
    assert (Hf : f = connected /\ ws = List.length (sockets w)).
    { destruct v; simpl in H; [auto|]. destruct H as [H|H]; [discriminate|auto]. }
    destruct Hf as [-> ->]. split; [now left|]. intros _. now exists rnd.
  - simpl in H. unfold onMessage in H.
    destruct (nth_error (sockets w) server) as [sid|]; [|destruct H]. simpl in H.
    destruct data as [| |m];
      [destruct H as [H|[]]; discriminate|destruct H as [H|[]]; discriminate|].
    unfold messageListener in H.
    destruct (is_string (type m) "join-room").
    { apply In_Send_caught, join_frames in H as [-> _].
      split; [right; left; eauto|discriminate]. }
    destruct (is_string (type m) "leave-room").
    { apply In_Send_caught, leave_frames in H as [-> _].
      split; [right; right; left; eauto|discriminate]. }
    unfold handleOffer, handleAnswer, handleIceCandidate in H.
    destruct (is_string (type m) "offer") eqn:E1.
    { apply In_Send_caught in H. unfold effects in H. cbn [snd] in H.
      apply broadcast_frames in H as [-> _].
      split; [|discriminate]. right; right; right; left. exists m.
      apply relayed_total. auto. }
    destruct (is_string (type m) "answer") eqn:E2.
    { apply In_Send_caught in H. unfold effects in H. cbn [snd] in H.
      apply broadcast_frames in H as [-> _].
      split; [|discriminate]. right; right; right; left. exists m.
      apply relayed_total. auto. }
    destruct (is_string (type m) "ice-candidate") eqn:E3.
    { apply In_Send_caught in H. unfold effects in H. cbn [snd] in H.
      apply broadcast_frames in H as [-> _].
      split; [|discriminate]. right; right; right; left. exists m.
      apply relayed_total. auto. }
    destruct v; [destruct H as [H|[]]; discriminate|].
    destruct (is_string (type m) "heartbeat"); [|destruct H as [H|[]]; discriminate].
    apply In_Send_caught in H. unfold effects in H. cbn [snd] in H.
    rewrite sendToClient_own in H. cbn [fst] in H.
    destruct (ready t server); [|destruct H].
    destruct H as [H|[]]. inversion H.
    split; [|discriminate]. right; right; right; right. now split.
  - destruct (nth_error (sockets w) server) as [sid|] eqn:Hsock.
    + apply (In_Send_onClose v t server sid w ws f Hsock) in H.
      apply (close_frames w t server sid ws f Hinv Hsock) in H as [[r [u ->]] _].
      split; [right; right; left; eauto|discriminate].
    + simpl in H. unfold onClose in H. rewrite Hsock in H. destruct H.
Qed.

(** X17.  Everything the worker ever sends is one of the messages it
    builds: [connected], [peer-joined], [peer-left], the relay of an offer,
    an answer or a candidate, and in the on-demand variant [heartbeat-ack].
    No input, however malformed, makes it send anything else; [connected]
    in particular is only what the accept of a connection sends, to that
    connection. *)
Theorem outbound_vocabulary (v : variant) (es : list (transport * event))
    (t : transport) (e : event) (ws : nat) (f : jsval) :
  (In (Send ws f) (trace v es initial) -> outbound v f)
  /\ (In (Send ws connected) (snd (step v t e (run v es initial))) ->
        exists rnd36, e = Upgrade rnd36
                      /\ ws = List.length (sockets (run v es initial))).
Proof.
  split.
  - assert (G : forall w, invariant w -> In (Send ws f) (trace v es w) -> outbound v f).
    { induction es as [|[t0 e'] es IH]; intros w Hinv H; [destruct H|].
      simpl in H. apply in_app_or in H as [H|H].
      - now destruct (step_frames_outbound v t0 e' w ws f Hinv H).
      - apply (IH (fst (step v t0 e' w))); [now apply invariant_step|assumption]. }
    apply G, invariant_initial.
  - intro H.
    assert (Hinv : invariant (run v es initial)) by apply invariant_run, invariant_initial.
    destruct (step_frames_outbound v t e _ ws connected Hinv H) as [_ Hc]. auto.
Qed.

Lemma outbound_vocabulary_witness : outbound WorkerJs connected.
Proof.
  apply (proj1 (outbound_vocabulary WorkerJs two_peers isolated (OnClose 0) 0 connected)).
  simpl. auto 10.
Defined.

(** ** On a runtime that shares no socket *)

Lemma reached_not_refused (t : transport) (own : nat) (cs : list client) (c : client) :
  In c (reached t own cs) -> refused t own (socket c) = false.
Proof.
  induction cs as [|c' cs IH]; simpl; [tauto|].
  destruct (refused t own (socket c')) eqn:E; [intros []|].
  intros [<-|H]; auto.
Qed.

(** Where no socket is shared, a broadcast of an accepted connection gets
    to nobody: a client it is for is on another socket, which the runtime
    refuses. *)
Lemma reached_nobody (socks : list string) (t : transport) (rs : registry) (X : nat)
    (sid : string) (r : ident) :
  isolating t -> well_formed rs ->
  (forall r u c, registered r u rs = Some c ->
     nth_error socks (socket c) = Some (socketId c)) ->
  nth_error socks X = Some sid ->
  reached t X (others sid (participants r rs)) = [].
Proof.
  intros Hiso Hwf Hco Hsock.
  destruct (reached t X (others sid (participants r rs))) as [|c cs] eqn:E; [reflexivity|].
  assert (Hc : In c (reached t X (others sid (participants r rs)))) by (rewrite E; now left).
  assert (Href : refused t X (socket c) = false) by now apply reached_not_refused in Hc.
  apply reached_incl, In_others in Hc as [[u Hu] Hsid].
  destruct (accepted_participant socks rs X sid r u c Hwf Hco Hsock Hu Hsid) as [Hne _].
  unfold refused in Href. rewrite (Hiso (socket c)) in Href.
  apply Nat.eqb_neq in Hne. rewrite Hne in Href. discriminate.
Qed.

Section Isolated.
Variable socks : list string.
Variable t : transport.
Variables (X : nat) (sid : string).
Hypothesis t_isolating : isolating t.
Hypothesis X_accepted : nth_error socks X = Some sid.

Abbreviation accepted rs :=
  (well_formed rs
   /\ forall r u c, registered r u rs = Some c ->
        nth_error socks (socket c) = Some (socketId c)).

Lemma accepted_leave (data : message) (rs : registry) :
  accepted rs -> accepted (fst (handleLeaveRoom t X sid data rs)).
Proof.
  intros [H1 H2]. split; [now apply well_formed_leave|].
  intros r u c Hreg.
  destruct (pair_cases (r, u) (roomId data, userId data)) as [E|E].
  - inversion E; subst. rewrite registered_leave_eq in Hreg. discriminate.
  - rewrite registered_leave_ne in Hreg by assumption. eauto.
Qed.

Lemma accepted_join (data : message) (rs : registry) :
  accepted rs -> accepted (fst (handleJoinRoom t X sid data rs)).
Proof.
  intros [H1 H2]. split; [now apply well_formed_join|].
  intros r u c Hreg.
  destruct (pair_cases (r, u) (roomId data, userId data)) as [E|E].
  - inversion E; subst. rewrite registered_join_eq in Hreg.
    inversion Hreg; subst. exact X_accepted.
  - rewrite registered_join_ne in Hreg by assumption. eauto.
Qed.

Lemma leave_sends_nothing (data : message) (rs : registry) :
  accepted rs -> sent (effects (handleLeaveRoom t X sid data rs)) = [].
Proof.
  intro H. rewrite sent_leave. destruct (template _); [|reflexivity].
  rewrite <- (participants_leave_eq t X sid data rs).
  destruct (accepted_leave data rs H) as [H1 H2].
  now rewrite (reached_nobody socks t _ X sid (roomId data) t_isolating H1 H2 X_accepted).
Qed.

Lemma join_sends_nothing (data : message) (rs : registry) :
  accepted rs -> sent (effects (handleJoinRoom t X sid data rs)) = [].
Proof.
  intro H. rewrite sent_join. destruct (template _); [|reflexivity].
  rewrite <- (participants_join_eq t X sid data rs).
  destruct (accepted_join data rs H) as [H1 H2].
  now rewrite (reached_nobody socks t _ X sid (roomId data) t_isolating H1 H2 X_accepted).
Qed.

Lemma broadcast_sends_nothing (rs : registry) (r : ident) (m : jsval) :
  accepted rs -> sent (fst (broadcastToRoom t X rs r m sid)) = [].
Proof.
  intros [H1 H2]. rewrite sent_broadcastToRoom.
  now rewrite (reached_nobody socks t rs X sid r t_isolating H1 H2 X_accepted).
Qed.

Lemma close_sends_nothing (rs : registry) :
  accepted rs -> sent (effects (closeListener t X sid rs)) = [].
Proof.
  intro H.
  destruct (closeListener_keeps (fun rs => accepted rs)
              (fun e => forall ws f, e <> Send ws f) t X sid) with (rs := rs) as [_ HQ].
  - intros data rs0. apply accepted_leave.
  - intros data rs0 e H0 He ws f ->. apply In_sent in He.
    now rewrite leave_sends_nothing in He.
  - exact H.
  - destruct (sent (effects (closeListener t X sid rs))) as [|[ws f] l] eqn:E; [reflexivity|].
    assert (Hin : In (ws, f) (sent (effects (closeListener t X sid rs))))
      by (rewrite E; now left).
    apply In_sent in Hin. exfalso. exact (HQ (Send ws f) Hin ws f eq_refl).
Qed.

End Isolated.

Lemma isolated_step_frames (v : variant) (t : transport) (e : event) (w : world)
    (ws : nat) (f : jsval) :
  isolating t -> invariant w ->
  In (Send ws f) (snd (step v t e w)) ->
  (f = connected /\ exists rnd36, e = Upgrade rnd36)
  \/ (f = heartbeat_ack /\ v = OnDemand /\ e <> OnClose ws
      /\ exists m, e = OnMessage ws (Json m) /\ is_string (type m) "heartbeat" = true).
Proof.
  intros Hiso [Hwf Hco] H. destruct e as [rnd|server data|server].
  - left. split; [|eauto].
    assert (Hnew : In (Send ws f)
                     (fst (sendToClient t (List.length (sockets w))
                             (List.length (sockets w)) connected))
                   -> f = connected).
    { rewrite sendToClient_own. cbn [fst]. destruct (ready t _); [|intros []].
      intros [E|[]]. now inversion E. }
    simpl in H. unfold handleWebSocket in H.
    destruct v; simpl in H; [auto|]. destruct H as [H|H]; [discriminate|auto].
  - simpl in H. unfold onMessage in H.
    destruct (nth_error (sockets w) server) as [sid|] eqn:Hsock; [|destruct H].
    simpl in H.
    destruct data as [| |m];
      [destruct H as [H|[]]; discriminate|destruct H as [H|[]]; discriminate|].
    assert (Hacc : well_formed (rooms w)
                   /\ forall r u c, registered r u (rooms w) = Some c ->
                        nth_error (sockets w) (socket c) = Some (socketId c))
      by now split.
    unfold messageListener in H.
    destruct (is_string (type m) "join-room").
    { apply In_Send_caught, In_sent in H.
      now rewrite (join_sends_nothing (sockets w) t server sid Hiso Hsock) in H. }
    destruct (is_string (type m) "leave-room").
    { apply In_Send_caught, In_sent in H.
      now rewrite (leave_sends_nothing (sockets w) t server sid Hiso Hsock) in H. }
    unfold handleOffer, handleAnswer, handleIceCandidate in H.
    assert (Hrelay : forall out,
              ~ In (Send ws f)
                  (snd (caught (rooms w, broadcastToRoom t server (rooms w) (roomId m) out sid)))).
    { intros out Hin. apply In_Send_caught, In_sent in Hin.
      unfold effects in Hin. cbn [snd] in Hin.
      now rewrite (broadcast_sends_nothing (sockets w) t server sid Hiso Hsock) in Hin. }
    destruct (is_string (type m) "offer"); [now apply Hrelay in H|].
    destruct (is_string (type m) "answer"); [now apply Hrelay in H|].
    destruct (is_string (type m) "ice-candidate"); [now apply Hrelay in H|].
    destruct v; [destruct H as [H|[]]; discriminate|].
    destruct (is_string (type m) "heartbeat") eqn:Hb; [|destruct H as [H|[]]; discriminate].
    apply In_Send_caught in H. unfold effects in H. cbn [snd] in H.
    rewrite sendToClient_own in H. cbn [fst] in H.
    destruct (ready t server); [|destruct H].
    destruct H as [H|[]]. inversion H; subst.
    right. split; [reflexivity|]. split; [reflexivity|]. split; [discriminate|eauto].
  - exfalso. destruct (nth_error (sockets w) server) as [sid|] eqn:Hsock.
    + apply (In_Send_onClose v t server sid w ws f Hsock), In_sent in H.
      rewrite (close_sends_nothing (sockets w) t server sid Hiso Hsock) in H; [destruct H|].
      now split.
    + simpl in H. unfold onClose in H. rewrite Hsock in H. destruct H.
Qed.

(** X18.  On a runtime that shares no socket between requests, as the
    Workers runtime, no frame ever goes from one connection to another:
    whatever the events of a run from the initial state, every frame the
    worker sends is the [connected] of an accept or, in the on-demand
    variant, a [heartbeat-ack]; no [peer-joined], [peer-left], offer,
    answer or candidate is ever sent. *)
Theorem nothing_crosses_requests (v : variant) (es : list (transport * event))
    (ws : nat) (f : jsval) :
  Forall (fun te => isolating (fst te)) es ->
  In (Send ws f) (trace v es initial) ->
  f = connected \/ (v = OnDemand /\ f = heartbeat_ack).
Proof.
  assert (G : forall w, invariant w -> Forall (fun te => isolating (fst te)) es ->
                        In (Send ws f) (trace v es w) ->
                        f = connected \/ (v = OnDemand /\ f = heartbeat_ack)).
  { induction es as [|[t e] es IH]; intros w Hinv Hes H; [destruct H|].
    inversion Hes as [|? ? Ht Hes']; subst. simpl in Ht, H.
    apply in_app_or in H as [H|H].
    - destruct (isolated_step_frames v t e w ws f Ht Hinv H) as [[-> _]|[-> [-> _]]]; auto.
    - apply (IH (fst (step v t e w))); auto. now apply invariant_step. }
  intros Hes H. exact (G initial invariant_initial Hes H).
Qed.

Lemma nothing_crosses_requests_witness :
  connected = connected \/ (OnDemand = OnDemand /\ connected = heartbeat_ack).
Proof.
  apply (nothing_crosses_requests OnDemand
           (two_peers ++ [(isolated, OnMessage 0 (Json offer_of_alice))]) 1 connected).
  - repeat constructor.
  - simpl. auto 10.
Defined.
